(** * MOSSy: the [ferreira] semantic-similarity comparer

    A shallow embedding of [mossy/plugins/ferreira.py] and the properties
    of its neighbourhood expansion and fuzzy-set combination.

    Number model.  The development reads the code twice.  In the main
    embedding Python floats are idealised as exact rationals: a weight is a
    canonical rational [Qc], so equality of weights is Leibniz equality and
    a neighbourhood (a Python [dict] from concept id to weight) is a finite
    map [gmap Z Qc].  The module [Binary64] is the same code on IEEE 754
    binary64 numbers with dictionaries kept in insertion order; it is used
    where rounding and the order of a summation decide. *)

From Stdlib Require Import Floats.PrimFloat.
From Stdlib Require Import ZArith QArith Qcanon Lia Lqa.
From stdpp Require Import gmap strings list fin_maps fin_sets sorting.

Local Open Scope Z_scope.
Local Set Warnings "-clear-no-such-hyp,-inexact-float".

(** ** Python values, exceptions and outcomes *)

(** The values an input item can be built from. *)
#[warnings="-register-all"]
Inductive pyval : Type :=
  | PyStr (s : string)
  | PyInt (z : Z)
  | PyNone
  | PyList (l : list pyval).

(** The exceptions that can leave the module.  [InvalidInputShape] and
    [UnknownEntity] are the error kinds named by the design document; no
    statement of [ferreira.py] raises them itself. *)
Inductive exn : Type :=
  | TypeError
  | IndexError
  | KeyError
  | ValueError
  | ZeroDivisionError
  | AttributeError
  | UnknownEntity
  | InvalidInputShape.

(** What a call does: it returns, raises, or (for the [while todo] loop,
    run with a step budget) has not finished within the budget. *)
Inductive outcome (A : Type) : Type :=
  | Return (a : A)
  | Raise (e : exn)
  | OutOfFuel.
Arguments Return {A} a.
Arguments Raise {A} e.
Arguments OutOfFuel {A}.

Global Instance outcome_ret : MRet outcome := λ A a, Return a.
Global Instance outcome_bind : MBind outcome := λ A B f m,
  match m with
  | Return a => f a
  | Raise e => Raise e
  | OutOfFuel => OutOfFuel
  end.

Global Instance outcome_fmap : FMap outcome := λ A B f m,
  match m with
  | Return a => Return (f a)
  | Raise e => Raise e
  | OutOfFuel => OutOfFuel
  end.

(** ** The relational store *)

(** A row of [existential_relations].  The [chain] column, a comma
    separated string of property ids in the store, is kept decoded
    ([props.split(',')] followed by [int], line 222). *)
Record relation_row : Type := {
  rel_chain : list Z;
  rel_start : Z;
  rel_end : Z;
  rel_distance : Z }.

(** A row of [hierarchy]. *)
Record hierarchy_row : Type := {
  hier_subclass : Z;
  hier_superclass : Z;
  hier_distance : Z }.

Record database : Type := {
  existential_relations : list relation_row;
  hierarchy : list hierarchy_row }.

(** Data-model invariant of the store: every recorded distance is a
    positive integer. *)
Definition store_wf (db : database) : Prop :=
  Forall (λ r, 1 ≤ rel_distance r) (existential_relations db) ∧
  Forall (λ r, 1 ≤ hier_distance r) (hierarchy db).

(** [SELECT chain, end, distance FROM existential_relations
     WHERE start = %s AND distance <= %s] *)
Definition get_relations_query (db : database) (start max_distance : Z)
  : list (list Z * Z * Z) :=
  (λ r, (rel_chain r, rel_end r, rel_distance r)) <$>
  filter (λ r, rel_start r = start ∧ rel_distance r ≤ max_distance)
         (existential_relations db).

(** [SELECT superclass, distance FROM hierarchy
     WHERE subclass = %s AND distance <= %s] *)
Definition select_superclasses_within (db : database) (c max_distance : Z)
  : list (Z * Z) :=
  (λ r, (hier_superclass r, hier_distance r)) <$>
  filter (λ r, hier_subclass r = c ∧ hier_distance r ≤ max_distance)
         (hierarchy db).

(** [SELECT superclass, distance FROM hierarchy
     WHERE subclass = %s AND distance = 1] *)
Definition select_direct_superclasses (db : database) (c : Z) : list (Z * Z) :=
  (λ r, (hier_superclass r, hier_distance r)) <$>
  filter (λ r, hier_subclass r = c ∧ hier_distance r = 1) (hierarchy db).

(** [SELECT subclass, distance FROM hierarchy
     WHERE superclass = %s AND distance <= %s] *)
Definition select_subclasses_within (db : database) (c max_distance : Z)
  : list (Z * Z) :=
  (λ r, (hier_subclass r, hier_distance r)) <$>
  filter (λ r, hier_superclass r = c ∧ hier_distance r ≤ max_distance)
         (hierarchy db).

(** [self.get_hierarchy_query], chosen in [__init__] by
    [discover_subclasses] (lines 117-130), run on the arguments built at
    lines 234-237.  SQL [UNION] removes duplicate rows. *)
Definition get_hierarchy_query (discover : bool) (db : database)
    (c max_distance : Z) : list (Z * Z) :=
  if discover
  then remove_dups (select_direct_superclasses db c ++
                    select_subclasses_within db c max_distance)
  else select_superclasses_within db c max_distance.

(** ** The comparer object *)

Record ferreira : Type := {
  distance_threshold : Z;
  weight_threshold : Qc;
  (** keyed by property id; the key [None] holds the hierarchy weight *)
  property_weights : gmap (option Z) Qc;
  default_weight : Qc;
  ic_calculator : option (Z → Qc);
  discover_subclasses : bool }.

(** Python's [max(a, b)]: the first argument unless the second is larger. *)
Definition pymax (a b : Qc) : Qc := if decide (a < b)%Qc then b else a.

(** [x ** n] for an integer exponent. *)
Definition pypow (x : Qc) (n : Z) : Qc :=
  if decide (n < 0) then (/ (x ^ Z.to_nat (- n)))%Qc else (x ^ Z.to_nat n)%Qc.

(** [get_properties_weight] (lines 253-257). *)
Definition get_properties_weight (self : ferreira) (props : list Z) : Qc :=
  foldl (λ result prop,
           (result * default (default_weight self)
                             (property_weights self !! Some prop))%Qc)
        1%Qc props.

(** [get_ic] (lines 260-264). *)
Definition get_ic (self : ferreira) (concept : Z) : Qc :=
  match ic_calculator self with
  | None => 1%Qc
  | Some get => get concept
  end.

(** ** Neighbourhood expansion *)

(** A work-list item: [(concept_id, distance so far, weight so far)]. *)
Definition entry : Type := Z * Z * Qc.

Definition entry_concept (e : entry) : Z := e.1.1.
Definition entry_distance (e : entry) : Z := e.1.2.
Definition entry_weight (e : entry) : Qc := e.2.

(** The admission test of lines 227-228 and 243-244. *)
Definition admitted (self : ferreira) (current_distance : Z)
    (current_weight : Qc) : bool :=
  bool_decide (current_distance ≤ distance_threshold self) &&
  bool_decide (weight_threshold self ≤ current_weight)%Qc.

(** Lines 217-229: the items appended to [todo] by the loop over the
    existential relations of the popped item, in row order. *)
Definition relation_pushes (self : ferreira) (db : database) (e : entry)
  : list entry :=
  let '(concept_id, prev_distance, prev_weight) := e in
  let max_distance := distance_threshold self - prev_distance in
  omap (λ row : list Z * Z * Z,
          let '(props, end_, distance) := row in
          let current_weight :=
            (prev_weight * get_properties_weight self props)%Qc in
          let current_distance := prev_distance + distance in
          if admitted self current_distance current_weight
          then Some (end_, current_distance, current_weight)
          else None)
       (get_relations_query db concept_id max_distance).

(** Lines 234-247: the items appended by the loop over the hierarchy rows,
    [hw] being [self.property_weights[None]]. *)
Definition hierarchy_pushes (self : ferreira) (db : database) (hw : Qc)
    (e : entry) : list entry :=
  let '(concept_id, prev_distance, prev_weight) := e in
  let max_distance := distance_threshold self - prev_distance in
  omap (λ row : Z * Z,
          let '(relative, distance) := row in
          let current_distance := prev_distance + distance in
          let current_weight := (prev_weight * pypow hw distance)%Qc in
          if admitted self current_distance current_weight
          then Some (relative, current_distance, current_weight)
          else None)
       (get_hierarchy_query (discover_subclasses self) db concept_id
                            max_distance).

(** Everything one iteration of the loop appends, in order of appending.
    [self.property_weights[None]] raises [KeyError] when the key is
    missing; a zero hierarchy weight skips the hierarchy query
    (lines 231-232). *)
Definition pushes (self : ferreira) (db : database) (e : entry)
  : outcome (list entry) :=
  match property_weights self !! None with
  | None => Raise KeyError
  | Some hw =>
      if decide (hw = 0%Qc)
      then Return (relation_pushes self db e)
      else Return (relation_pushes self db e ++ hierarchy_pushes self db hw e)
  end.

(** Line 215: [result[concept_id] = max(result[concept_id], prev_weight)]
    on a [defaultdict(float)]. *)
Definition record_weight (result : gmap Z Qc) (concept_id : Z) (w : Qc)
  : gmap Z Qc :=
  <[concept_id := pymax (default 0%Qc (result !! concept_id)) w]> result.

(** The [while todo] loop of lines 212-247 with a step budget.  The stack
    [todo] is kept top first: the head of the list is the last element of
    the Python list, [todo.pop()] takes the head and [todo.append] conses. *)
Fixpoint expand_loop (self : ferreira) (db : database) (fuel : nat)
    (todo : list entry) (result : gmap Z Qc) : outcome (gmap Z Qc) :=
  match todo with
  | [] => Return result
  | e :: todo' =>
      match fuel with
      | O => OutOfFuel
      | S fuel' =>
          let result' := record_weight result (entry_concept e) (entry_weight e) in
          new ← pushes self db e;
          expand_loop self db fuel' (reverse new ++ todo') result'
      end
  end.

(** The first work-list item of a chain (lines 203-210); [chain[-1]] raises
    [IndexError] on an empty chain. *)
Definition seed (self : ferreira) (chain : list Z) : outcome entry :=
  match last chain with
  | None => Raise IndexError
  | Some concept =>
      let chain_weight :=
        (get_properties_weight self (removelast chain) * get_ic self concept)%Qc in
      Return (concept, Z.of_nat (length chain) - 1, chain_weight)
  end.

(** [find_and_weigh_neighbors] (lines 179-249). *)
Definition find_and_weigh_neighbors (self : ferreira) (db : database)
    (fuel : nat) (chain : list Z) : outcome (gmap Z Qc) :=
  s ← seed self chain;
  expand_loop self db fuel [s] ∅.

(** A Python [for] loop whose body may raise, threading the loop state. *)
Fixpoint for_loop {A S : Type} (body : S → A → outcome S) (items : list A)
    (s : S) : outcome S :=
  match items with
  | [] => Return s
  | x :: items' => s' ← body s x; for_loop body items' s'
  end.

(** Lines 169-170: the inner loop of [construct_neighborhood]. *)
Definition merge_neighbors (result neighbors : gmap Z Qc) : gmap Z Qc :=
  map_fold (λ concept_id weight result, record_weight result concept_id weight)
           result neighbors.

(** Lines 168-170: the body of the loop over the chains. *)
Definition merge_chain (self : ferreira) (db : database) (fuel : nat)
    (result : gmap Z Qc) (chain : list Z) : outcome (gmap Z Qc) :=
  neighbors ← find_and_weigh_neighbors self db fuel chain;
  mret (merge_neighbors result neighbors).

(** [construct_neighborhood] (lines 165-176) without the logging block of
    lines 172-175, which reads [result] and resolves each key through
    [utils.get_entity] but does not change what is returned. *)
Definition construct_neighborhood (self : ferreira) (db : database)
    (fuel : nat) (chains : list (list Z)) : outcome (gmap Z Qc) :=
  for_loop (merge_chain self db fuel) chains ∅.

(** ** Fuzzy-set combination *)

(** [inter] (lines 147-152). *)
Definition inter (n1 n2 : gmap Z Qc) : Qc :=
  map_fold (λ concept_id weight1 result,
              let weight2 := default 0%Qc (n2 !! concept_id) in
              (result + weight1 * weight2)%Qc)
           0%Qc n1.

(** The summand of [union] for one concept (lines 159-161). *)
Definition union_term (n1 n2 : gmap Z Qc) (concept_id : Z) : Qc :=
  let weight1 := default 0%Qc (n1 !! concept_id) in
  let weight2 := default 0%Qc (n2 !! concept_id) in
  (weight1 + weight2 - weight1 * weight2)%Qc.

(** [union] (lines 155-162); [set(n1).union(n2)] is the set of keys of
    either dictionary. *)
Definition union (n1 n2 : gmap Z Qc) : Qc :=
  set_fold (λ concept_id result, (result + union_term n1 n2 concept_id)%Qc)
           0%Qc (dom n1 ∪ dom n2).

(** Line 144: the quotient; Python raises on a zero divisor. *)
Definition similarity (n1 n2 : gmap Z Qc) : outcome Qc :=
  if decide (union n1 n2 = 0%Qc)
  then Raise ZeroDivisionError
  else Return (inter n1 n2 / union n1 n2)%Qc.

(** ** Log-frequency weighting *)

Record LogScale : Type := { scale_min : Qc; scale_max : Qc }.

(** [SELECT chain, COUNT( * ) FROM existential_relations
     WHERE distance = 1 GROUP BY chain] *)
Definition direct_relation_counts (db : database) : list (list Z * Z) :=
  let direct := filter (λ r, rel_distance r = 1) (existential_relations db) in
  (λ ch, (ch, Z.of_nat (length (filter (λ r, rel_chain r = ch) direct)))) <$>
  remove_dups (rel_chain <$> direct).

(** How the constructor of the comparer is called. *)
Inductive default_weight_option : Type :=
  | DefaultWeight (w : Qc)
  | DefaultLogScale (ls : LogScale).

Inductive property_weights_option : Type :=
  | NoPropertyWeights
  | PropertyWeights (items : list (pyval * Qc))
  | PropertyLogScale (ls : LogScale).

Record options : Type := {
  (** the [get] method of the [ICCalculator] built from [ic], if given *)
  opt_ic : option (Z → Qc);
  opt_distance_threshold : Z;
  opt_weight_threshold : Qc;
  opt_property_weights : property_weights_option;
  opt_default_weight : default_weight_option;
  opt_hierarchy_weight : Qc;
  opt_discover_subclasses : bool }.

(** The keyword defaults of [__init__] (lines 76-83). *)
Definition default_options : options := {|
  opt_ic := None;
  opt_distance_threshold := 3;
  opt_weight_threshold := Q2Qc (3 # 10);
  opt_property_weights := NoPropertyWeights;
  opt_default_weight := DefaultWeight (Q2Qc (7 # 10));
  opt_hierarchy_weight := Q2Qc (8 # 10);
  opt_discover_subclasses := false |}.

Section Externals.

(** [mossy.utils] and [math.log] are outside the module. *)

(** [utils.get_id(iri, kind)]; the second argument is omitted for
    concepts. *)
Variable get_id : pyval → option string → outcome Z.
(** [utils.to_seq(item)]. *)
Variable to_seq : pyval → outcome (list pyval).
(** [math.log] on a positive integer. *)
Variable math_log : Z → Qc.

(** [chain_to_ids] (lines 12-19). *)
Definition chain_to_ids (chain : list pyval) : outcome (list Z) :=
  let properties := removelast chain in
  match last chain with
  | None => Raise IndexError
  | Some concept =>
      ids ← mapM (λ i, get_id i (Some "ObjectProperty"%string)) properties;
      c ← get_id concept None;
      mret (ids ++ [c])
  end.

(** [convert_input] (lines 22-43).  Iterating over a value that is not
    iterable raises [TypeError]. *)
Definition convert_input (item : pyval) : outcome (list (list Z)) :=
  chains ← match item with
           | PyStr s => mret [[PyStr s]]
           | PyList elements => mapM to_seq elements
           | PyInt _ | PyNone => Raise TypeError
           end;
  mapM chain_to_ids chains.

(** [compare] (lines 133-144). *)
Definition compare (self : ferreira) (db : database) (fuel : nat)
    (one two : pyval) : outcome Qc :=
  one ← convert_input one;
  two ← convert_input two;
  n1 ← construct_neighborhood self db fuel one;
  n2 ← construct_neighborhood self db fuel two;
  similarity n1 n2.

(** [LogScale.get_weights] (lines 54-70).  [math.log(0)] raises
    [ValueError], a zero [log_total] makes the division raise, and
    [int(prop_id)] raises [ValueError] unless the chain is one id. *)
Definition get_weights (ls : LogScale) (db : database)
  : outcome (gmap (option Z) Qc) :=
  let total := Z.of_nat (length (existential_relations db)) in
  if decide (total ≤ 0) then Raise ValueError else
  let log_total := math_log total in
  for_loop (λ result (row : list Z * Z),
              let '(prop_id, count) := row in
              if decide (log_total = 0%Qc) then Raise ZeroDivisionError else
              let weight := (1 - math_log count / log_total)%Qc in
              match prop_id with
              | [p] =>
                  Return (<[Some p := (scale_min ls +
                                       (scale_max ls - scale_min ls) * weight)%Qc]>
                          result)
              | _ => Raise ValueError
              end)
           (direct_relation_counts db) ∅.

(** Lines 88-95: the table and the default weight [__init__] starts
    from; a [LogScale] passed as [default_weight] derives the table. *)
Definition initial_weights (dw : default_weight_option) (db : database)
  : outcome (gmap (option Z) Qc * Qc) :=
  match dw with
  | DefaultLogScale ls => w ← get_weights ls db; mret (w, 0%Qc)
  | DefaultWeight w => mret (∅, w)
  end.

(** Lines 98-100: the body of the loop over [property_weights.items()]. *)
Definition set_property_weight (weights : gmap (option Z) Qc)
    (item : pyval * Qc) : outcome (gmap (option Z) Qc) :=
  prop ← get_id item.1 (Some "ObjectProperty"%string);
  mret (<[Some prop := item.2]> weights).

(** Lines 97-100.  A [LogScale] object has no [items] method. *)
Definition explicit_weights (pw : property_weights_option)
    (weights : gmap (option Z) Qc) : outcome (gmap (option Z) Qc) :=
  match pw with
  | NoPropertyWeights => mret weights
  | PropertyWeights items => for_loop set_property_weight items weights
  | PropertyLogScale _ => Raise AttributeError
  end.

(** [ferreira.__init__] (lines 76-130). *)
Definition init (o : options) (db : database) : outcome ferreira :=
  '(weights, dw) ← initial_weights (opt_default_weight o) db;
  weights ← explicit_weights (opt_property_weights o) weights;
  mret {| distance_threshold := opt_distance_threshold o;
          weight_threshold := opt_weight_threshold o;
          property_weights := <[None := opt_hierarchy_weight o]> weights;
          default_weight := dw;
          ic_calculator := opt_ic o;
          discover_subclasses := opt_discover_subclasses o |}.

End Externals.

(** ** The comparer on binary64 numbers *)

(** The numeric code of the comparer once more, on Python's own numbers:
    a weight is an IEEE 754 binary64 [float] and a dictionary keeps its
    keys in insertion order.  The store, its queries and the input
    normalization hold no weight and are shared with the embedding
    above. *)
Module Binary64.

(** A [dict] from concept id to weight, first inserted key first. *)
Definition neighborhood : Type := list (Z * PrimFloat.float).

(** [d.get(k)] *)
Fixpoint dict_get (d : neighborhood) (k : Z) : option PrimFloat.float :=
  match d with
  | [] => None
  | (k', v) :: d' => if decide (k' = k) then Some v else dict_get d' k
  end.

(** [d[k] = v]: a key that is present keeps its place, a new key goes
    last. *)
Fixpoint dict_set (d : neighborhood) (k : Z) (v : PrimFloat.float)
  : neighborhood :=
  match d with
  | [] => [(k, v)]
  | (k', v') :: d' =>
      if decide (k' = k) then (k, v) :: d' else (k', v') :: dict_set d' k v
  end.

Record ferreira : Type := {
  distance_threshold : Z;
  weight_threshold : PrimFloat.float;
  (** keyed by property id; the key [None] holds the hierarchy weight *)
  property_weights : gmap (option Z) PrimFloat.float;
  default_weight : PrimFloat.float;
  ic_calculator : option (Z → PrimFloat.float);
  discover_subclasses : bool }.

(** Python's [max(a, b)]: the first argument unless the second is larger. *)
Definition pymax (a b : PrimFloat.float) : PrimFloat.float :=
  if (a <? b)%float then b else a.

(** [get_properties_weight] (lines 253-257). *)
Definition get_properties_weight (self : ferreira) (props : list Z)
  : PrimFloat.float :=
  foldl (λ result prop,
           (result * default (default_weight self)
                             (property_weights self !! Some prop))%float)
        1%float props.

(** [get_ic] (lines 260-264). *)
Definition get_ic (self : ferreira) (concept : Z) : PrimFloat.float :=
  match ic_calculator self with
  | None => 1%float
  | Some get => get concept
  end.

(** A work-list item: [(concept_id, distance so far, weight so far)]. *)
Definition entry : Type := Z * Z * PrimFloat.float.

(** The admission test of lines 227-228 and 243-244. *)
Definition admitted (self : ferreira) (current_distance : Z)
    (current_weight : PrimFloat.float) : bool :=
  bool_decide (current_distance ≤ distance_threshold self) &&
  (weight_threshold self <=? current_weight)%float.

(** Line 215 on a [defaultdict(float)]. *)
Definition record_weight (result : neighborhood) (concept_id : Z)
    (w : PrimFloat.float) : neighborhood :=
  dict_set result concept_id
           (pymax (default 0%float (dict_get result concept_id)) w).

(** [inter] (lines 147-152): the products are added in the order of the
    keys of [n1]. *)
Definition inter (n1 n2 : neighborhood) : PrimFloat.float :=
  foldl (λ result item,
           let weight2 := default 0%float (dict_get n2 item.1) in
           (result + item.2 * weight2)%float)
        0%float n1.

Section Runtime.

(** [float ** int] is computed by the C library's [pow], and the order
    in which [for concept_id in concepts] walks a [set] is the
    interpreter's; both are taken as given, like [mossy.utils]. *)
Variable float_pow : PrimFloat.float → Z → PrimFloat.float.
(** The order of iteration of the set built from a list of keys. *)
Variable set_iter : list Z → list Z.
Variable get_id : pyval → option string → outcome Z.
Variable to_seq : pyval → outcome (list pyval).

(** Lines 217-229. *)
Definition relation_pushes (self : ferreira) (db : database) (e : entry)
  : list entry :=
  let '(concept_id, prev_distance, prev_weight) := e in
  let max_distance := distance_threshold self - prev_distance in
  omap (λ row : list Z * Z * Z,
          let '(props, end_, distance) := row in
          let current_weight :=
            (prev_weight * get_properties_weight self props)%float in
          let current_distance := prev_distance + distance in
          if admitted self current_distance current_weight
          then Some (end_, current_distance, current_weight)
          else None)
       (get_relations_query db concept_id max_distance).

(** Lines 234-247. *)
Definition hierarchy_pushes (self : ferreira) (db : database)
    (hw : PrimFloat.float) (e : entry) : list entry :=
  let '(concept_id, prev_distance, prev_weight) := e in
  let max_distance := distance_threshold self - prev_distance in
  omap (λ row : Z * Z,
          let '(relative, distance) := row in
          let current_distance := prev_distance + distance in
          let current_weight := (prev_weight * float_pow hw distance)%float in
          if admitted self current_distance current_weight
          then Some (relative, current_distance, current_weight)
          else None)
       (get_hierarchy_query (discover_subclasses self) db concept_id
                            max_distance).

(** One iteration of the loop; [not hw] holds of a zero weight. *)
Definition pushes (self : ferreira) (db : database) (e : entry)
  : outcome (list entry) :=
  match property_weights self !! None with
  | None => Raise KeyError
  | Some hw =>
      if (hw =? 0)%float
      then Return (relation_pushes self db e)
      else Return (relation_pushes self db e ++ hierarchy_pushes self db hw e)
  end.

(** The [while todo] loop of lines 212-247, the stack kept top first. *)
Fixpoint expand_loop (self : ferreira) (db : database) (fuel : nat)
    (todo : list entry) (result : neighborhood) : outcome neighborhood :=
  match todo with
  | [] => Return result
  | e :: todo' =>
      match fuel with
      | O => OutOfFuel
      | S fuel' =>
          let result' := record_weight result e.1.1 e.2 in
          new ← pushes self db e;
          expand_loop self db fuel' (reverse new ++ todo') result'
      end
  end.

(** Lines 203-210. *)
Definition seed (self : ferreira) (chain : list Z) : outcome entry :=
  match last chain with
  | None => Raise IndexError
  | Some concept =>
      let chain_weight :=
        (get_properties_weight self (removelast chain) *
         get_ic self concept)%float in
      Return (concept, Z.of_nat (length chain) - 1, chain_weight)
  end.

(** [find_and_weigh_neighbors] (lines 179-249). *)
Definition find_and_weigh_neighbors (self : ferreira) (db : database)
    (fuel : nat) (chain : list Z) : outcome neighborhood :=
  s ← seed self chain;
  expand_loop self db fuel [s] [].

(** Lines 169-170, in the order of [neighbors.items()]. *)
Definition merge_neighbors (result neighbors : neighborhood) : neighborhood :=
  foldl (λ result item, record_weight result item.1 item.2) result neighbors.

(** Lines 168-170. *)
Definition merge_chain (self : ferreira) (db : database) (fuel : nat)
    (result : neighborhood) (chain : list Z) : outcome neighborhood :=
  neighbors ← find_and_weigh_neighbors self db fuel chain;
  mret (merge_neighbors result neighbors).

(** [construct_neighborhood] (lines 165-176), logging apart. *)
Definition construct_neighborhood (self : ferreira) (db : database)
    (fuel : nat) (chains : list (list Z)) : outcome neighborhood :=
  for_loop (merge_chain self db fuel) chains [].

(** [union] (lines 155-162): the probabilistic sums are added in the
    order in which the set [set(n1).union(n2)] is iterated. *)
Definition union (n1 n2 : neighborhood) : PrimFloat.float :=
  let concepts := set_iter (remove_dups (n1.*1 ++ n2.*1)) in
  foldl (λ result concept_id,
           let weight1 := default 0%float (dict_get n1 concept_id) in
           let weight2 := default 0%float (dict_get n2 concept_id) in
           (result + (weight1 + weight2 - weight1 * weight2))%float)
        0%float concepts.

(** Line 144: the quotient; Python raises on a zero divisor. *)
Definition similarity (n1 n2 : neighborhood) : outcome PrimFloat.float :=
  if (union n1 n2 =? 0)%float
  then Raise ZeroDivisionError
  else Return (inter n1 n2 / union n1 n2)%float.

(** [compare] (lines 133-144). *)
Definition compare (self : ferreira) (db : database) (fuel : nat)
    (one two : pyval) : outcome PrimFloat.float :=
  one ← convert_input get_id to_seq one;
  two ← convert_input get_id to_seq two;
  n1 ← construct_neighborhood self db fuel one;
  n2 ← construct_neighborhood self db fuel two;
  similarity n1 n2.

End Runtime.

(** Every membership weight lies in [[0,1]]. *)
Definition unit_weights (n : neighborhood) : bool :=
  forallb (λ item, (0 <=? item.2)%float && (item.2 <=? 1)%float) n.

End Binary64.

(** ** Specification devices *)

(** The effect of a sequence of [result[k] = max(result[k], w)] updates. *)
Definition record_all (result : gmap Z Qc) (items : list (Z * Qc)) : gmap Z Qc :=
  foldr (λ item r, record_weight r item.1 item.2) result items.

Definition entry_item (e : entry) : Z * Qc := (entry_concept e, entry_weight e).

(** The loop as the design document words it: while the work list is not
    empty, remove one entry, whichever, record its weight, and add the
    entries it pushes, wherever. *)
Inductive any_order_run (self : ferreira) (db : database)
  : list entry → gmap Z Qc → gmap Z Qc → Prop :=
  | run_done result :
      any_order_run self db [] result result
  | run_step todo1 e todo2 new todo' result final :
      pushes self db e = Return new →
      todo' ≡ₚ todo1 ++ todo2 ++ new →
      any_order_run self db todo'
        (record_weight result (entry_concept e) (entry_weight e)) final →
      any_order_run self db (todo1 ++ e :: todo2) result final.

(** Single-chain expansion with an unconstrained traversal order. *)
Definition expand_any_order (self : ferreira) (db : database) (chain : list Z)
    (final : gmap Z Qc) : Prop :=
  ∃ s, seed self chain = Return s ∧ any_order_run self db [s] ∅ final.

(** All entries visited below each entry of a list. *)
Fixpoint forest_of (sub : entry → option (list entry)) (l : list entry)
  : option (list entry) :=
  match l with
  | [] => Some []
  | e :: l' => p ← sub e; ps ← forest_of sub l'; Some (p ++ ps)
  end.

(** The entries visited from [e], itself included, when the pushes nest
    at most [n] deep. *)
Fixpoint subtree (self : ferreira) (db : database) (n : nat) (e : entry)
  : option (list entry) :=
  match n with
  | O => None
  | S n' =>
      match pushes self db e with
      | Return new => cons e <$> forest_of (subtree self db n') new
      | _ => None
      end
  end.

Definition forest (self : ferreira) (db : database) (n : nat)
  : list entry → option (list entry) :=
  forest_of (subtree self db n).

(** The same comparer with other thresholds. *)
Definition with_thresholds (self : ferreira) (dt : Z) (wt : Qc) : ferreira :=
  {| distance_threshold := dt;
     weight_threshold := wt;
     property_weights := property_weights self;
     default_weight := default_weight self;
     ic_calculator := ic_calculator self;
     discover_subclasses := discover_subclasses self |}.

Definition sum_list (l : list Qc) : Qc := foldr Qcplus 0%Qc l.

(** Every membership weight lies in [[0,1]]. *)
Definition unit_weights (n : gmap Z Qc) : Prop :=
  map_Forall (λ _ w, (0 ≤ w ∧ w ≤ 1)%Qc) n.

Global Instance unit_weights_dec n : Decision (unit_weights n).
Proof. unfold unit_weights. apply _. Defined.

(** A neighbourhood is crisp when its weights are all 0 or 1. *)
Definition crisp (n : gmap Z Qc) : Prop :=
  map_Forall (λ _ w, w = 0%Qc ∨ w = 1%Qc) n.

Global Instance crisp_dec n : Decision (crisp n).
Proof. unfold crisp. apply _. Defined.

(** The claim that the iteration on the entry [e] retrieves the
    superclasses of its concept at every distance within the remaining
    budget: each such row whose entry passes the admission test is
    appended to the work list. *)
Definition pushes_superclasses_within_budget (self : ferreira)
    (db : database) (e : entry) : Prop :=
  ∀ r hw new,
    r ∈ hierarchy db → hier_subclass r = entry_concept e →
    hier_distance r ≤ distance_threshold self - entry_distance e →
    property_weights self !! None = Some hw →
    pushes self db e = Return new →
    admitted self (entry_distance e + hier_distance r)
      (entry_weight e * pypow hw (hier_distance r))%Qc = true →
    (hier_superclass r, entry_distance e + hier_distance r,
     (entry_weight e * pypow hw (hier_distance r))%Qc) ∈ new.

(** [x] is the sum of the terms of the keys, accumulated from 0 as
    [result += term] does, in the order of some listing of the keys. *)
Definition accumulates (x : Qc) (term : Z → Qc) (keys : gset Z) : Prop :=
  ∃ l, l ≡ₚ elements keys ∧
       x = foldl (λ result k, (result + term k)%Qc) 0%Qc l.

(** The summand of [inter] for one concept (lines 150-151). *)
Definition inter_term (n1 n2 : gmap Z Qc) (concept_id : Z) : Qc :=
  let weight1 := default 0%Qc (n1 !! concept_id) in
  let weight2 := default 0%Qc (n2 !! concept_id) in
  (weight1 * weight2)%Qc.

(** The shapes of item that the comparer documents: a concept, a list of
    concepts, or a list of chains (each a non-empty list of strings). *)
Definition is_str (v : pyval) : bool :=
  match v with PyStr _ => true | _ => false end.

Definition is_chain (v : pyval) : bool :=
  match v with
  | PyList (x :: l) => forallb is_str (x :: l)
  | _ => false
  end.

Definition accepted_shape (item : pyval) : bool :=
  match item with
  | PyStr _ => true
  | PyList l => forallb is_str l || forallb is_chain l
  | _ => false
  end.

(** ** A small ontology to run the comparer on *)

(** Modelled from the spec: [utils.get_id], the identifier resolution
    [resolve(iri, kind) -> integer id] that fails with [UnknownEntity] when
    the IRI is not found, here over three concepts and two properties. *)
Definition example_get_id (v : pyval) (kind : option string) : outcome Z :=
  let concepts : gmap string Z :=
    list_to_map [("A", 1); ("B", 2); ("C", 3)]%string in
  let properties : gmap string Z :=
    list_to_map [("part_of", 10); ("regulates", 11)]%string in
  match v with
  | PyStr iri =>
      let table := if kind is Some _ then properties else concepts in
      match table !! iri with
      | Some id => Return id
      | None => Raise UnknownEntity
      end
  | _ => Raise UnknownEntity
  end.

(** Modelled from the spec: [utils.to_seq]; an element that is already a
    chain is kept and a single concept becomes a chain of length 1. *)
Definition example_to_seq (v : pyval) : outcome (list pyval) :=
  match v with
  | PyList l => Return l
  | _ => Return [v]
  end.

(** A rational stand-in for [math.log]: the integer logarithm in base 2. *)
Definition example_log (z : Z) : Qc := Qc_of_Z (Z.log2 z).

(** [A] is a [B], [B] is a [C]; [A part_of C], [B part_of C] and
    [A regulates B], with the chain [A regulates.part_of C] they imply. *)
Definition example_db : database := {|
  existential_relations :=
    [ {| rel_chain := [10]; rel_start := 1; rel_end := 3; rel_distance := 1 |};
      {| rel_chain := [10]; rel_start := 2; rel_end := 3; rel_distance := 1 |};
      {| rel_chain := [11]; rel_start := 1; rel_end := 2; rel_distance := 1 |};
      {| rel_chain := [11; 10]; rel_start := 1; rel_end := 3; rel_distance := 2 |} ];
  hierarchy :=
    [ {| hier_subclass := 1; hier_superclass := 2; hier_distance := 1 |};
      {| hier_subclass := 2; hier_superclass := 3; hier_distance := 1 |};
      {| hier_subclass := 1; hier_superclass := 3; hier_distance := 2 |} ] |}.

(** The comparer built with the default options. *)
Definition example_self : ferreira := {|
  distance_threshold := 3;
  weight_threshold := Q2Qc (3 # 10);
  property_weights := {[ None := Q2Qc (8 # 10) ]};
  default_weight := Q2Qc (7 # 10);
  ic_calculator := None;
  discover_subclasses := false |}.

(** A comparer whose weights are all 1. *)
Definition crisp_self : ferreira := {|
  distance_threshold := 3;
  weight_threshold := Q2Qc (3 # 10);
  property_weights := {[ None := 1%Qc ]};
  default_weight := 1%Qc;
  ic_calculator := None;
  discover_subclasses := false |}.

(** The default comparer with subclass discovery. *)
Definition discovering_self : ferreira := {|
  distance_threshold := 3;
  weight_threshold := Q2Qc (3 # 10);
  property_weights := {[ None := Q2Qc (8 # 10) ]};
  default_weight := Q2Qc (7 # 10);
  ic_calculator := None;
  discover_subclasses := true |}.

(** A store that breaks the invariant: [A] is its own superclass at
    distance 0. *)
Definition looping_db : database := {|
  existential_relations := [];
  hierarchy :=
    [ {| hier_subclass := 1; hier_superclass := 1; hier_distance := 0 |} ] |}.

(** The default options with a frequency-derivation directive passed as
    [property_weights]. *)
Definition directive_as_property_weights : options := {|
  opt_ic := None;
  opt_distance_threshold := 3;
  opt_weight_threshold := Q2Qc (3 # 10);
  opt_property_weights := PropertyLogScale {| scale_min := 0; scale_max := 1 |};
  opt_default_weight := DefaultWeight (Q2Qc (7 # 10));
  opt_hierarchy_weight := Q2Qc (8 # 10);
  opt_discover_subclasses := false |}.

(** The default options with the directive passed as [default_weight]
    and one explicit property weight. *)
Definition directive_as_default_weight : options := {|
  opt_ic := None;
  opt_distance_threshold := 3;
  opt_weight_threshold := Q2Qc (3 # 10);
  opt_property_weights := PropertyWeights [(PyStr "regulates", Q2Qc (9 # 10))];
  opt_default_weight := DefaultLogScale {| scale_min := 0; scale_max := 1 |};
  opt_hierarchy_weight := Q2Qc (8 # 10);
  opt_discover_subclasses := false |}.

(** ** Further specification devices *)

(** A weight of the unit interval. *)
Definition unit_interval (w : Qc) : Prop := (0 ≤ w ∧ w ≤ 1)%Qc.

(** A comparer whose property weights, hierarchy weight, default weight
    and information contents all lie in the unit interval. *)
Definition unit_config (self : ferreira) : Prop :=
  map_Forall (λ _ w, unit_interval w) (property_weights self) ∧
  unit_interval (default_weight self) ∧
  ∀ concept, unit_interval (get_ic self concept).

(** A comparer whose property weights, hierarchy weight and default weight
    lie in the unit interval. *)
Definition unit_table (self : ferreira) : Prop :=
  map_Forall (λ _ w, unit_interval w) (property_weights self) ∧
  unit_interval (default_weight self).

(** The entries the loop can come to hold, starting from the seed [s]:
    the seed, and whatever an iteration on such an entry appends. *)
Inductive reachable (self : ferreira) (db : database) (s : entry)
  : entry → Prop :=
  | reach_seed : reachable self db s s
  | reach_push e new e' :
      reachable self db s e → pushes self db e = Return new → e' ∈ new →
      reachable self db s e'.

(** A property identifier is listed by an explicit weight entry when the
    IRI of the entry resolves to it. *)
Definition listed (get_id : pyval → option string → outcome Z)
    (items : list (pyval * Qc)) (p : Z) : Prop :=
  ∃ item, item ∈ items ∧ get_id item.1 (Some "ObjectProperty"%string) = Return p.

(** The default comparer with a hierarchy weight of 0. *)
Definition flat_self : ferreira := {|
  distance_threshold := 3;
  weight_threshold := Q2Qc (3 # 10);
  property_weights := {[ None := 0%Qc ]};
  default_weight := Q2Qc (7 # 10);
  ic_calculator := None;
  discover_subclasses := false |}.

(** The example store without its hierarchy. *)
Definition example_relations_only : database := {|
  existential_relations := existential_relations example_db;
  hierarchy := [] |}.

(** The default options with one explicit property weight. *)
Definition explicit_regulates : options := {|
  opt_ic := None;
  opt_distance_threshold := 3;
  opt_weight_threshold := Q2Qc (3 # 10);
  opt_property_weights := PropertyWeights [(PyStr "regulates", Q2Qc (9 # 10))];
  opt_default_weight := DefaultWeight (Q2Qc (7 # 10));
  opt_hierarchy_weight := Q2Qc (8 # 10);
  opt_discover_subclasses := false |}.

(** ** The example ontology on binary64 numbers *)

(** The comparer built with the default options; a decimal literal
    denotes the nearest binary64 number, as it does in Python. *)
Definition binary64_self : Binary64.ferreira := {|
  Binary64.distance_threshold := 3;
  Binary64.weight_threshold := 0.3%float;
  Binary64.property_weights := {[ None := 0.8%float ]};
  Binary64.default_weight := 0.7%float;
  Binary64.ic_calculator := None;
  Binary64.discover_subclasses := false |}.

(** A stand-in for [pow] by repeated multiplication; it is exact for the
    exponent 1 and the correctly rounded square for the exponent 2, the
    distances of the example store. *)
Definition example_pow (x : PrimFloat.float) (n : Z) : PrimFloat.float :=
  Z.iter n (λ r, (r * x)%float) 1%float.




(** * Proofs *)

(** ** Recording weights: the algebra of [max] aggregation *)

(** Order facts on [Qc] are settled on the underlying rationals. *)
Ltac qc_order :=
  repeat match goal with
         | H : ¬ (_ < _)%Qc |- _ => apply Qcnot_lt_le in H
         | H : ¬ (_ ≤ _)%Qc |- _ => apply Qcnot_le_lt in H
         end;
  try apply Qc_is_canon; unfold Qcle, Qclt in *; lra.

Lemma pymax_le_l (a b : Qc) : (a ≤ pymax a b)%Qc.
Proof. unfold pymax; case_decide; qc_order. Qed.

Lemma pymax_le_r (a b : Qc) : (b ≤ pymax a b)%Qc.
Proof. unfold pymax; case_decide; qc_order. Qed.

Lemma pymax_swap (a b c : Qc) : pymax (pymax a b) c = pymax (pymax a c) b.
Proof. unfold pymax; repeat case_decide; qc_order. Qed.

Lemma pymax_idemp (a b : Qc) : pymax (pymax a b) b = pymax a b.
Proof. unfold pymax; repeat case_decide; qc_order. Qed.

Lemma lookup_record_weight (m : gmap Z Qc) (k k' : Z) (w : Qc) :
  record_weight m k w !! k' =
  if decide (k = k') then Some (pymax (default 0%Qc (m !! k)) w) else m !! k'.
Proof. unfold record_weight. by rewrite lookup_insert. Qed.

Lemma record_weight_comm (m : gmap Z Qc) (k1 k2 : Z) (w1 w2 : Qc) :
  record_weight (record_weight m k1 w1) k2 w2 =
  record_weight (record_weight m k2 w2) k1 w1.
Proof.
  apply map_eq; intros k. rewrite !lookup_record_weight.
  destruct (decide (k1 = k2)) as [->|Hne].
  - rewrite !(decide_True (P := k2 = k2)) by done. simpl.
    destruct (decide (k2 = k)); [|done]. by rewrite pymax_swap.
  - rewrite (decide_False (P := k2 = k1)) by done.
    destruct (decide (k1 = k)), (decide (k2 = k)); congruence.
Qed.

Lemma record_weight_idemp (m : gmap Z Qc) (k : Z) (w : Qc) :
  record_weight (record_weight m k w) k w = record_weight m k w.
Proof.
  apply map_eq; intros k'. rewrite !lookup_record_weight.
  rewrite (decide_True (P := k = k)) by done. simpl.
  destruct (decide (k = k')); [|done]. by rewrite pymax_idemp.
Qed.

Global Instance record_all_perm (result : gmap Z Qc) :
  Proper ((≡ₚ) ==> (=)) (record_all result).
Proof.
  apply (foldr_permutation_proper (=)); [solve_proper|].
  intros [k1 w1] [k2 w2] m; simpl. apply record_weight_comm.
Qed.

Lemma record_all_app (result : gmap Z Qc) (l1 l2 : list (Z * Qc)) :
  record_all result (l1 ++ l2) = record_all (record_all result l2) l1.
Proof. unfold record_all. by rewrite foldr_app. Qed.

Lemma record_all_snoc (result : gmap Z Qc) (l : list (Z * Qc)) (k : Z) (w : Qc) :
  record_all (record_weight result k w) l = record_weight (record_all result l) k w.
Proof.
  change (record_all (record_all result [(k, w)]) l = record_all result ((k, w) :: l)).
  rewrite <-record_all_app. apply record_all_perm.
  by rewrite Permutation_app_comm.
Qed.

Lemma record_all_dup (result : gmap Z Qc) (l : list (Z * Qc)) (x : Z * Qc) :
  x ∈ l → record_all result (x :: l) = record_all result l.
Proof.
  intros (l1 & l2 & ->)%list_elem_of_split.
  rewrite (record_all_perm result (x :: l1 ++ x :: l2) (x :: x :: l1 ++ l2)).
  - rewrite (record_all_perm result (l1 ++ x :: l2) (x :: l1 ++ l2)).
    + simpl. apply record_weight_idemp.
    + by rewrite Permutation_middle.
  - by rewrite <-Permutation_middle.
Qed.

Lemma record_all_remove_dups (result : gmap Z Qc) (l : list (Z * Qc)) :
  record_all result (remove_dups l) = record_all result l.
Proof.
  induction l as [|x l IH]; [done|]. simpl.
  destruct (decide_rel elem_of x l) as [Hin|Hin].
  - rewrite IH. symmetry. by apply (record_all_dup result l x).
  - simpl. by rewrite IH.
Qed.

(** A sequence of updates matters only through the set of its items. *)
Lemma record_all_ext (result : gmap Z Qc) (l1 l2 : list (Z * Qc)) :
  (∀ x, x ∈ l1 ↔ x ∈ l2) → record_all result l1 = record_all result l2.
Proof.
  intros Heq. rewrite <-(record_all_remove_dups _ l1), <-(record_all_remove_dups _ l2).
  apply record_all_perm, NoDup_Permutation; [apply NoDup_remove_dups..|].
  intros x. by rewrite !elem_of_remove_dups.
Qed.

Lemma dom_record_weight (m : gmap Z Qc) (k : Z) (w : Qc) :
  dom (record_weight m k w) = {[ k ]} ∪ dom m.
Proof. unfold record_weight. by rewrite dom_insert_L. Qed.

Lemma dom_record_all (result : gmap Z Qc) (l : list (Z * Qc)) :
  dom (record_all result l) = dom result ∪ list_to_set l.*1.
Proof.
  induction l as [|[k w] l IH]; simpl.
  - set_solver.
  - rewrite dom_record_weight, IH. set_solver.
Qed.

Lemma record_weight_mono (m : gmap Z Qc) (k k' : Z) (w a : Qc) :
  m !! k' = Some a →
  ∃ a', record_weight m k w !! k' = Some a' ∧ (a ≤ a')%Qc.
Proof.
  intros Hk. rewrite lookup_record_weight. case_decide as Heq.
  - subst. rewrite Hk. simpl. eexists; split; [done|apply pymax_le_l].
  - exists a. split; [done|apply Qcle_refl].
Qed.

Lemma record_all_ge (result : gmap Z Qc) (l : list (Z * Qc)) (k : Z) (w : Qc) :
  (k, w) ∈ l → ∃ w', record_all result l !! k = Some w' ∧ (w ≤ w')%Qc.
Proof.
  induction l as [|[k0 w0] l IH]; [by intros ?%elem_of_nil|].
  intros [Heq|Hin]%elem_of_cons; simpl.
  - injection Heq as -> ->. rewrite lookup_record_weight, decide_True by done.
    eexists; split; [done|apply pymax_le_r].
  - destruct (IH Hin) as (w' & Hw' & Hle).
    destruct (record_weight_mono (record_all result l) k0 k w0 w' Hw')
      as (a' & Ha' & Hle').
    exists a'. split; [done|]. by apply Qcle_trans with w'.
Qed.

(** ** The entries an expansion visits *)

Section Forest.
Variables (self : ferreira) (db : database).

Lemma forest_of_cons sub e l :
  forest_of sub (e :: l) = p ← sub e; ps ← forest_of sub l; Some (p ++ ps).
Proof. done. Qed.

Lemma forest_of_app sub l1 l2 :
  forest_of sub (l1 ++ l2) =
  p1 ← forest_of sub l1; p2 ← forest_of sub l2; Some (p1 ++ p2).
Proof.
  induction l1 as [|e l1 IH]; simpl.
  - by destruct (forest_of sub l2).
  - destruct (sub e) as [p|]; simpl; [|done]. rewrite IH.
    destruct (forest_of sub l1) as [p1|]; simpl; [|done].
    destruct (forest_of sub l2) as [p2|]; simpl; [|done].
    by rewrite (assoc_L (++)).
Qed.

Lemma forest_of_mono (sub sub' : entry → option (list entry)) l p :
  (∀ e q, sub e = Some q → sub' e = Some q) →
  forest_of sub l = Some p → forest_of sub' l = Some p.
Proof.
  intros Hsub. revert p. induction l as [|e l IH]; intros p; simpl; [done|].
  destruct (sub e) as [q|] eqn:He; simpl; [|done].
  destruct (forest_of sub l) as [ps|] eqn:Hl; simpl; [|done].
  intros [= <-]. by rewrite (Hsub _ _ He), (IH _ eq_refl).
Qed.

Lemma subtree_unfold n e :
  subtree self db (S n) e =
  match pushes self db e with
  | Return new => cons e <$> forest_of (subtree self db n) new
  | _ => None
  end.
Proof. done. Qed.

Lemma subtree_S n e p :
  subtree self db n e = Some p → subtree self db (S n) e = Some p.
Proof.
  revert e p. induction n as [|n IH]; intros e p; [done|].
  rewrite (subtree_unfold (S n)), (subtree_unfold n).
  destruct (pushes self db e) as [new| |]; [|done..].
  destruct (forest_of (subtree self db n) new) as [q|] eqn:Hq; [|done].
  intros [= <-]. by rewrite (forest_of_mono _ _ _ _ IH Hq).
Qed.

Lemma subtree_le n m e p :
  (n ≤ m)%nat → subtree self db n e = Some p → subtree self db m e = Some p.
Proof. induction 1; [done|]. intros. by apply subtree_S, IHle. Qed.

Lemma forest_le n m l p :
  (n ≤ m)%nat → forest self db n l = Some p → forest self db m l = Some p.
Proof. intros Hle. apply forest_of_mono. intros e q. by apply subtree_le. Qed.

Lemma forest_of_perm sub l1 l2 p1 :
  l1 ≡ₚ l2 → forest_of sub l1 = Some p1 →
  ∃ p2, forest_of sub l2 = Some p2 ∧ p1 ≡ₚ p2.
Proof.
  intros Hperm. revert p1.
  induction Hperm as [|e l1 l2 _ IH|e1 e2 l|l1 l2 l3 _ IH1 _ IH2]; intros p1; simpl.
  - intros [= <-]. by exists [].
  - destruct (sub e) as [q|]; simpl; [|done].
    destruct (forest_of sub l1) as [ps|]; simpl; [|done].
    intros [= <-]. destruct (IH _ eq_refl) as (ps' & -> & Hps). simpl.
    exists (q ++ ps'). by rewrite Hps.
  - destruct (sub e1) as [q1|], (sub e2) as [q2|]; simpl; try done.
    destruct (forest_of sub l) as [ps|]; simpl; [|done].
    intros [= <-]. eexists; split; [done|].
    rewrite !(assoc_L (++)). by rewrite (Permutation_app_comm q2 q1).
  - intros H1. destruct (IH1 _ H1) as (p2 & H2 & Hp12).
    destruct (IH2 _ H2) as (p3 & H3 & Hp23).
    exists p3. split; [done|]. by etrans.
Qed.

(** Every run, in whatever order, visits the entries of the forest below
    its work list and ends with the [max] of their weights. *)
Lemma any_order_run_forest todo result final :
  any_order_run self db todo result final →
  ∃ n p, forest self db n todo = Some p ∧
         final = record_all result (entry_item <$> p).
Proof.
  induction 1 as [result|todo1 e todo2 new todo' result final Hpush Hperm _ IH].
  - by exists O, [].
  - destruct IH as (n & p & Hforest & ->).
    destruct (forest_of_perm _ _ _ _ Hperm Hforest) as (p' & Hp' & Hpp').
    unfold forest in *. rewrite !forest_of_app in Hp'.
    destruct (forest_of (subtree self db n) todo1) as [p1|] eqn:H1; [|done].
    destruct (forest_of (subtree self db n) todo2) as [p2|] eqn:H2; [|done].
    destruct (forest_of (subtree self db n) new) as [pn|] eqn:Hn; [|done].
    simpl in Hp'. injection Hp' as <-.
    exists (S n), (p1 ++ (e :: pn) ++ p2). split.
    + rewrite forest_of_app, forest_of_cons, subtree_unfold, Hpush, Hn.
      rewrite (forest_of_mono _ (subtree self db (S n)) _ _ (subtree_S n) H1).
      by rewrite (forest_of_mono _ (subtree self db (S n)) _ _ (subtree_S n) H2).
    + rewrite record_all_snoc.
      change (record_weight ?m (entry_concept e) (entry_weight e))
        with (record_all m [entry_item e]).
      rewrite <-record_all_app. apply record_all_perm.
      rewrite Hpp', !fmap_app, fmap_cons. simpl.
      rewrite <-Permutation_middle.
      apply Permutation_skip, Permutation_app_head, Permutation_app_comm.
Qed.

(** The reference loop is one of these runs. *)
Lemma expand_loop_run fuel todo result final :
  expand_loop self db fuel todo result = Return final →
  any_order_run self db todo result final.
Proof.
  revert todo result. induction fuel as [|fuel IH]; intros [|e todo] result; simpl.
  - intros [= ->]. constructor.
  - done.
  - intros [= ->]. constructor.
  - destruct (pushes self db e) as [new| |] eqn:Hpush; [|done..]. simpl.
    intros Hloop.
    apply (run_step self db [] e todo new (reverse new ++ todo) _ _ Hpush);
      [|by apply IH].
    simpl. by rewrite reverse_Permutation, Permutation_app_comm.
Qed.

End Forest.

Section Visits.
Variables (self : ferreira) (db : database).

Lemma forest_of_elem sub l p x :
  forest_of sub l = Some p → x ∈ p →
  ∃ e q, e ∈ l ∧ sub e = Some q ∧ x ∈ q.
Proof.
  revert p. induction l as [|e l IH]; intros p; simpl.
  - intros [= <-] ?%elem_of_nil. done.
  - destruct (sub e) as [q|] eqn:He; simpl; [|done].
    destruct (forest_of sub l) as [ps|]; simpl; [|done].
    intros [= <-] [Hx|Hx]%elem_of_app.
    + exists e, q. split; [left|done].
    + destruct (IH _ eq_refl Hx) as (e' & q' & ? & ? & ?).
      exists e', q'. split; [by right|done].
Qed.

Lemma forest_of_lookup sub l p e :
  forest_of sub l = Some p → e ∈ l → ∃ q, sub e = Some q ∧ q ⊆ p.
Proof.
  revert p. induction l as [|e0 l IH]; intros p; simpl.
  - by intros _ ?%elem_of_nil.
  - destruct (sub e0) as [q|] eqn:He; simpl; [|done].
    destruct (forest_of sub l) as [ps|]; simpl; [|done].
    intros [= <-] [->|Hin]%elem_of_cons.
    + exists q. split; [done|]. intros x ?. apply elem_of_app. by left.
    + destruct (IH _ eq_refl Hin) as (q' & ? & Hsub).
      exists q'. split; [done|]. intros x ?. apply elem_of_app. right. by apply Hsub.
Qed.

Lemma forest_of_is_Some sub l :
  (∀ e, e ∈ l → is_Some (sub e)) → is_Some (forest_of sub l).
Proof.
  induction l as [|e l IH]; intros Hall; simpl; [by eexists|].
  destruct (Hall e) as [q ->]; [left|]. simpl.
  destruct IH as [ps ->]; [intros; apply Hall; by right|]. by eexists.
Qed.

(** The visited entries do not depend on the depth bound, once it is
    large enough. *)
Lemma forest_det n m l p p' :
  forest self db n l = Some p → forest self db m l = Some p' → p = p'.
Proof.
  intros H1 H2.
  apply (forest_le self db n (n `max` m)) in H1; [|lia].
  apply (forest_le self db m (n `max` m)) in H2; [|lia].
  congruence.
Qed.

Lemma forest_cons_inv n e todo p :
  forest self db n (e :: todo) = Some p →
  ∃ n' new pn pr,
    n = S n' ∧ pushes self db e = Return new ∧
    forest self db n' new = Some pn ∧ forest self db n todo = Some pr ∧
    p = e :: pn ++ pr.
Proof.
  unfold forest. rewrite forest_of_cons. destruct n as [|n]; [done|].
  rewrite subtree_unfold.
  destruct (pushes self db e) as [new| |] eqn:Hpush; [|done..].
  destruct (forest_of (subtree self db n) new) as [pn|] eqn:Hn; [|done].
  destruct (forest_of (subtree self db (S n)) todo) as [pr|] eqn:Hr; [|done].
  intros Heq. exists n, new, pn, pr. repeat split; try done.
  by injection Heq as <-.
Qed.

(** The reference loop visits the forest below its stack, one entry per
    iteration. *)
Lemma expand_loop_forest fuel : ∀ n todo p result,
  forest self db n todo = Some p → (length p ≤ fuel)%nat →
  expand_loop self db fuel todo result =
  Return (record_all result (entry_item <$> p)).
Proof.
  induction fuel as [|fuel IH]; intros n [|e todo] p result Hforest Hlen.
  - injection Hforest as <-. done.
  - apply forest_cons_inv in Hforest as (? & ? & ? & ? & _ & _ & _ & _ & ->).
    simpl in Hlen. lia.
  - injection Hforest as <-. done.
  - apply forest_cons_inv in Hforest
      as (n' & new & pn & pr & -> & Hpush & Hn & Hr & ->).
    apply (forest_le self db n' (S n')) in Hn; [|lia].
    destruct (forest_of_perm (subtree self db (S n')) new (reverse new) pn)
      as (pn' & Hn' & Hperm); [by rewrite reverse_Permutation|done|].
    simpl. rewrite Hpush. simpl.
    rewrite (IH (S n') (reverse new ++ todo) (pn' ++ pr)).
    + f_equal. rewrite record_all_snoc. f_equal.
      apply record_all_perm, fmap_Permutation.
      by apply Permutation_app_tail.
    + unfold forest in *. by rewrite forest_of_app, Hn', Hr.
    + simpl in Hlen. rewrite length_app in *.
      apply Permutation_length in Hperm. lia.
Qed.

(** What a returning run of the reference loop computes. *)
Lemma find_and_weigh_neighbors_forest fuel chain r :
  find_and_weigh_neighbors self db fuel chain = Return r →
  ∃ s n q, seed self chain = Return s ∧
           forest self db n [s] = Some (s :: q) ∧
           r = record_all ∅ (entry_item <$> s :: q).
Proof.
  unfold find_and_weigh_neighbors.
  destruct (seed self chain) as [s| |] eqn:Hs; [|done..]. simpl.
  intros (n & p & Hp & ->)%expand_loop_run%any_order_run_forest.
  apply forest_cons_inv in Hp as Hinv.
  destruct Hinv as (? & ? & pn & pr & _ & _ & _ & _ & ->).
  by exists s, n, (pn ++ pr).
Qed.

End Visits.

(** ** What the queries return and what the loop pushes *)

Lemma elem_of_get_relations_query db c b props end_ dist :
  (props, end_, dist) ∈ get_relations_query db c b ↔
  ∃ r, r ∈ existential_relations db ∧ rel_start r = c ∧ rel_distance r ≤ b ∧
       rel_chain r = props ∧ rel_end r = end_ ∧ rel_distance r = dist.
Proof.
  unfold get_relations_query. rewrite list_elem_of_fmap.
  setoid_rewrite list_elem_of_filter. naive_solver.
Qed.

Lemma elem_of_get_hierarchy_query discover db c b relative dist :
  (relative, dist) ∈ get_hierarchy_query discover db c b ↔
  (∃ r, r ∈ hierarchy db ∧ hier_subclass r = c ∧ hier_superclass r = relative ∧
        hier_distance r = dist ∧ if discover then dist = 1 else dist ≤ b) ∨
  (discover = true ∧
   ∃ r, r ∈ hierarchy db ∧ hier_superclass r = c ∧ hier_subclass r = relative ∧
        hier_distance r = dist ∧ dist ≤ b).
Proof.
  unfold get_hierarchy_query, select_direct_superclasses,
    select_subclasses_within, select_superclasses_within.
  destruct discover.
  - rewrite elem_of_remove_dups, elem_of_app, !list_elem_of_fmap.
    setoid_rewrite list_elem_of_filter. naive_solver.
  - rewrite list_elem_of_fmap. setoid_rewrite list_elem_of_filter. naive_solver.
Qed.

Lemma admitted_spec self d w :
  admitted self d w = true ↔ d ≤ distance_threshold self ∧ (weight_threshold self ≤ w)%Qc.
Proof.
  unfold admitted. by rewrite andb_true_iff, !bool_decide_eq_true.
Qed.

Lemma elem_of_relation_pushes self db e e' :
  e' ∈ relation_pushes self db e ↔
  ∃ r, r ∈ existential_relations db ∧ rel_start r = entry_concept e ∧
       rel_distance r ≤ distance_threshold self - entry_distance e ∧
       admitted self (entry_distance e + rel_distance r)
         (entry_weight e * get_properties_weight self (rel_chain r))%Qc = true ∧
       e' = (rel_end r, entry_distance e + rel_distance r,
             (entry_weight e * get_properties_weight self (rel_chain r))%Qc).
Proof.
  destruct e as [[c d] w]. unfold relation_pushes, entry_concept, entry_distance,
    entry_weight. rewrite list_elem_of_omap. split.
  - intros ([[props end_] dist] & Hrow & Hadm).
    apply elem_of_get_relations_query in Hrow
      as (r & Hr & Hs & Hd & <- & <- & <-).
    exists r. simpl in *.
    destruct (admitted self _ _) eqn:Ha; [|done]. injection Hadm as <-. done.
  - intros (r & Hr & Hs & Hd & Hadm & ->). simpl in *.
    exists (rel_chain r, rel_end r, rel_distance r). split.
    + apply elem_of_get_relations_query. by exists r.
    + by rewrite Hadm.
Qed.

Lemma elem_of_hierarchy_pushes self db hw e e' :
  e' ∈ hierarchy_pushes self db hw e ↔
  ∃ relative dist,
    (relative, dist) ∈ get_hierarchy_query (discover_subclasses self) db
       (entry_concept e) (distance_threshold self - entry_distance e) ∧
    admitted self (entry_distance e + dist) (entry_weight e * pypow hw dist)%Qc = true ∧
    e' = (relative, entry_distance e + dist, (entry_weight e * pypow hw dist)%Qc).
Proof.
  destruct e as [[c d] w]. unfold hierarchy_pushes, entry_concept, entry_distance,
    entry_weight. rewrite list_elem_of_omap. split.
  - intros ([relative dist] & Hrow & Hadm). exists relative, dist. simpl in *.
    destruct (admitted self _ _) eqn:Ha; [|done]. injection Hadm as <-. done.
  - intros (relative & dist & Hrow & Hadm & ->). simpl in *.
    exists (relative, dist). by rewrite Hadm.
Qed.

Lemma pushes_Return self db e new :
  pushes self db e = Return new →
  ∃ hw, property_weights self !! None = Some hw ∧
        ∀ e', e' ∈ new → e' ∈ relation_pushes self db e ∨
                          (hw ≠ 0%Qc ∧ e' ∈ hierarchy_pushes self db hw e).
Proof.
  unfold pushes. destruct (property_weights self !! None) as [hw|]; [|done].
  case_decide; intros [= <-]; exists hw; split; try done.
  - by left.
  - intros e' [?|?]%elem_of_app; [by left|by right].
Qed.

Lemma pushes_is_Return self db e :
  is_Some (property_weights self !! None) → ∃ new, pushes self db e = Return new.
Proof. unfold pushes. intros [hw ->]. case_decide; by eexists. Qed.

(** Every pushed entry is strictly farther than the entry it comes from,
    and within the distance threshold. *)
Lemma pushes_distance self db e new e' :
  store_wf db → pushes self db e = Return new → e' ∈ new →
  entry_distance e < entry_distance e' ≤ distance_threshold self.
Proof.
  intros [Hrel Hhier] (hw & _ & Hnew)%pushes_Return Hin.
  rewrite Forall_forall in Hrel. rewrite Forall_forall in Hhier.
  destruct (Hnew _ Hin) as [Hr|[_ Hh]].
  - apply elem_of_relation_pushes in Hr as (r & Hr & _ & _ & Hadm & ->).
    apply admitted_spec in Hadm as [? _]. specialize (Hrel _ Hr).
    unfold entry_distance in *; simpl. lia.
  - apply elem_of_hierarchy_pushes in Hh as (relative & dist & Hrow & Hadm & ->).
    apply admitted_spec in Hadm as [? _].
    assert (1 ≤ dist) as Hdist.
    { apply elem_of_get_hierarchy_query in Hrow
        as [(r & Hr & _ & _ & <- & _)|[_ (r & Hr & _ & _ & <- & _)]];
        by apply Hhier. }
    unfold entry_distance in *; simpl. lia.
Qed.

(** On a well-formed store the pushes nest no deeper than the distance
    budget of the entry. *)
Lemma subtree_defined self db :
  store_wf db → is_Some (property_weights self !! None) →
  ∀ n e, (Z.to_nat (distance_threshold self + 1 - entry_distance e) < n)%nat →
         is_Some (subtree self db n e).
Proof.
  intros Hwf Hhw. induction n as [|n IH]; intros e Hn; [lia|].
  rewrite subtree_unfold.
  destruct (pushes_is_Return self db e Hhw) as [new Hpush]. rewrite Hpush.
  destruct (forest_of_is_Some (subtree self db n) new) as [q ->]; [|by eexists].
  intros e' He'. apply IH.
  pose proof (pushes_distance self db e new e' Hwf Hpush He'). lia.
Qed.

(** ** Termination and order independence of the expansion *)

Lemma seed_Return self chain s :
  seed self chain = Return s →
  ∃ c, last chain = Some c ∧
       s = (c, Z.of_nat (length chain) - 1,
            (get_properties_weight self (removelast chain) * get_ic self c)%Qc).
Proof.
  unfold seed. destruct (last chain) as [c|]; [|done]. intros [= <-]. by exists c.
Qed.

Lemma expand_loop_defined self db s :
  store_wf db → is_Some (property_weights self !! None) →
  ∃ p, ∀ fuel, (length p ≤ fuel)%nat →
    expand_loop self db fuel [s] ∅ = Return (record_all ∅ (entry_item <$> p)).
Proof.
  intros Hwf Hhw.
  set (n := S (Z.to_nat (distance_threshold self + 1 - entry_distance s))).
  destruct (subtree_defined self db Hwf Hhw n s) as [q Hq]; [lia|].
  exists (q ++ []). intros fuel Hfuel.
  apply (expand_loop_forest self db fuel n); [|done].
  unfold forest. by rewrite forest_of_cons, Hq.
Qed.

(** C4: on a store whose distances are all at least 1, and whatever the
    weights (no assumption is made on them), every entry pushed by an
    iteration is strictly farther than the entry it was derived from and
    within [distance_threshold]; and the expansion of any chain halts:
    with enough iterations it never runs out of them, and it returns a
    neighbourhood when the chain is not empty and the hierarchy weight is
    set. *)
Theorem expansion_terminates self db chain :
  store_wf db →
  (∀ e new e', pushes self db e = Return new → e' ∈ new →
     entry_distance e < entry_distance e' ≤ distance_threshold self) ∧
  (∃ fuel, ∀ fuel', (fuel ≤ fuel')%nat →
     find_and_weigh_neighbors self db fuel' chain ≠ OutOfFuel) ∧
  (chain ≠ [] → is_Some (property_weights self !! None) →
   ∃ fuel r, ∀ fuel', (fuel ≤ fuel')%nat →
     find_and_weigh_neighbors self db fuel' chain = Return r).
Proof.
  intros Hwf. split; [|split].
  - intros e new e'. by apply pushes_distance.
  - unfold find_and_weigh_neighbors.
    destruct (seed self chain) as [s| |] eqn:Hs.
    + destruct (property_weights self !! None) as [hw|] eqn:Hhw.
      * destruct (expand_loop_defined self db s Hwf) as [p Hp]; [by eexists|].
        exists (length p). intros fuel' Hfuel. simpl. by rewrite Hp.
      * exists 1%nat. intros [|fuel'] ?; [lia|]. simpl.
        unfold pushes. by rewrite Hhw.
    + by exists O.
    + unfold seed in Hs. by destruct (last chain).
  - intros Hchain Hhw. unfold find_and_weigh_neighbors.
    destruct (seed self chain) as [s| |] eqn:Hs.
    + destruct (expand_loop_defined self db s Hwf Hhw) as [p Hp].
      exists (length p), (record_all ∅ (entry_item <$> p)).
      intros fuel' Hfuel. simpl. by apply Hp.
    + unfold seed in Hs. destruct (last chain) eqn:Hlast; [done|].
      by apply last_None in Hlast.
    + unfold seed in Hs. by destruct (last chain).
Qed.

Lemma expand_loop_cons self db fuel e todo result :
  expand_loop self db (S fuel) (e :: todo) result =
  new ← pushes self db e;
  expand_loop self db fuel (reverse new ++ todo)
    (record_weight result (entry_concept e) (entry_weight e)).
Proof. done. Qed.

(** The invariant of the store cannot be dropped: on a zero-distance cycle
    the loop pushes the popped entry again, for ever. *)
Lemma zero_distance_cycle_loops fuel :
  find_and_weigh_neighbors crisp_self looping_db fuel [1] = OutOfFuel.
Proof.
  unfold find_and_weigh_neighbors, seed. simpl.
  replace (get_properties_weight crisp_self [] * get_ic crisp_self 1)%Qc
    with 1%Qc by by apply Qc_is_canon.
  change (Z.of_nat 1 - 1) with 0.
  generalize (∅ : gmap Z Qc).
  induction fuel as [|fuel IH]; intros result; [done|].
  assert (pushes crisp_self looping_db (1, 0, 1%Qc) = Return [(1, 0, 1%Qc)]) as Hpush.
  { vm_compute. by repeat f_equal. }
  rewrite expand_loop_cons, Hpush. apply IH.
Qed.

(** C5: when the reference (last-in-first-out) expansion of a chain returns
    a neighbourhood, that neighbourhood is also the outcome of a run in
    unconstrained order, and every run of the work list, whatever the
    order in which entries are removed and added, ends with exactly the
    same concept-to-weight mapping. *)
Theorem traversal_order_irrelevant self db fuel chain r :
  find_and_weigh_neighbors self db fuel chain = Return r →
  expand_any_order self db chain r ∧
  ∀ r', expand_any_order self db chain r' → r' = r.
Proof.
  intros Hret. split.
  - unfold find_and_weigh_neighbors in Hret.
    destruct (seed self chain) as [s| |] eqn:Hs; [|done..].
    exists s. split; [done|]. by apply (expand_loop_run self db fuel).
  - intros r' (s' & Hs' & Hrun).
    apply find_and_weigh_neighbors_forest in Hret as (s & n & q & Hs & Hq & ->).
    assert (s' = s) as -> by congruence.
    apply any_order_run_forest in Hrun as (n' & p' & Hp' & ->).
    by rewrite (forest_det self db _ _ _ _ _ Hp' Hq).
Qed.

(** C10: whenever the expansion of a chain returns, the terminal concept
    of the chain is a key of the neighbourhood and its weight is at least
    the initial weight of the chain (the product of the property weights
    times the information content); no threshold enters the statement. *)
Theorem seed_always_recorded self db fuel chain r c :
  find_and_weigh_neighbors self db fuel chain = Return r →
  last chain = Some c →
  ∃ w, r !! c = Some w ∧
       (get_properties_weight self (removelast chain) * get_ic self c ≤ w)%Qc.
Proof.
  intros (s & n & q & Hs & _ & ->)%find_and_weigh_neighbors_forest Hlast.
  apply seed_Return in Hs as (c' & Hc' & ->).
  assert (c' = c) as -> by congruence.
  apply record_all_ge. rewrite fmap_cons. left.
Qed.

(** ** Pruning is monotone in the thresholds *)

Section Pruning.
Variables (self : ferreira) (db : database).
Variables (dt dt' : Z) (wt wt' : Qc).
Hypothesis Hdt : dt' ≤ dt.
Hypothesis Hwt : (wt ≤ wt')%Qc.

Abbreviation loose := (with_thresholds self dt wt).
Abbreviation strict := (with_thresholds self dt' wt').

Lemma admitted_mono d w : admitted strict d w = true → admitted loose d w = true.
Proof.
  rewrite !admitted_spec. simpl. intros [? ?]. split; [lia|].
  by apply Qcle_trans with wt'.
Qed.

Lemma relation_pushes_mono e :
  relation_pushes strict db e ⊆ relation_pushes loose db e.
Proof.
  intros e' (r & Hr & Hs & Hd & Hadm & ->)%elem_of_relation_pushes.
  apply elem_of_relation_pushes. exists r. simpl in *.
  repeat split; try done; [lia|]. by apply admitted_mono.
Qed.

Lemma hierarchy_pushes_mono hw e :
  hierarchy_pushes strict db hw e ⊆ hierarchy_pushes loose db hw e.
Proof.
  intros e' (relative & dist & Hrow & Hadm & ->)%elem_of_hierarchy_pushes.
  apply elem_of_hierarchy_pushes. exists relative, dist. simpl in *.
  repeat split; try done; [|by apply admitted_mono].
  apply elem_of_get_hierarchy_query. apply elem_of_get_hierarchy_query in Hrow.
  destruct Hrow as [(r & ? & ? & ? & ? & Hb)|[? (r & ? & ? & ? & ? & Hb)]].
  - left. exists r. repeat split; try done.
    destruct (discover_subclasses self); [done|lia].
  - right. split; [done|]. exists r. repeat split; try done. lia.
Qed.

Lemma pushes_mono e new' :
  pushes strict db e = Return new' →
  ∃ new, pushes loose db e = Return new ∧ new' ⊆ new.
Proof.
  unfold pushes. simpl.
  destruct (property_weights self !! None) as [hw|]; [|done].
  case_decide; intros [= <-]; eexists; (split; [done|]).
  - apply relation_pushes_mono.
  - intros e' [?|?]%elem_of_app; apply elem_of_app;
      [left; by apply relation_pushes_mono|right; by apply hierarchy_pushes_mono].
Qed.

Lemma subtree_mono n' : ∀ e p' n p,
  subtree strict db n' e = Some p' → subtree loose db n e = Some p → p' ⊆ p.
Proof.
  induction n' as [|k IH]; intros e p' [|m] p; try done.
  rewrite !subtree_unfold.
  destruct (pushes strict db e) as [new'| |] eqn:Hpush'; [|done..].
  destruct (pushes_mono e new' Hpush') as (new & -> & Hnew).
  destruct (forest_of (subtree strict db k) new') as [q'|] eqn:Hq'; [|done].
  destruct (forest_of (subtree loose db m) new) as [q|] eqn:Hq; [|done].
  intros [= <-] [= <-] x [->|Hx]%elem_of_cons; [left|right].
  destruct (forest_of_elem _ _ _ _ Hq' Hx) as (c & qc' & Hc & Hqc' & Hxc).
  destruct (forest_of_lookup _ _ _ c Hq (Hnew _ Hc)) as (qc & Hqc & Hsub).
  apply Hsub. by apply (IH c qc' m qc).
Qed.

End Pruning.

Lemma seed_with_thresholds self dt wt chain :
  seed (with_thresholds self dt wt) chain = seed self chain.
Proof. done. Qed.

(** C8: with the store and the weights fixed, the expansion of a chain
    under a distance threshold [dt' ≤ dt] and a weight threshold
    [wt' ≥ wt] has no key that the expansion under [dt] and [wt] lacks. *)
Theorem pruning_monotone self db dt dt' wt wt' fuel fuel' chain r r' :
  dt' ≤ dt → (wt ≤ wt')%Qc →
  find_and_weigh_neighbors (with_thresholds self dt wt) db fuel chain = Return r →
  find_and_weigh_neighbors (with_thresholds self dt' wt') db fuel' chain = Return r' →
  dom r' ⊆ dom r.
Proof.
  intros Hdt Hwt
    (s & n & q & Hs & Hq & ->)%find_and_weigh_neighbors_forest
    (s' & n' & q' & Hs' & Hq' & ->)%find_and_weigh_neighbors_forest.
  rewrite seed_with_thresholds in Hs, Hs'.
  assert (s' = s) as -> by congruence.
  rewrite !dom_record_all.
  assert (s :: q' ⊆ s :: q) as Hsub.
  { unfold forest in Hq, Hq'. rewrite forest_of_cons in Hq, Hq'.
    destruct (subtree _ db n s) as [p|] eqn:Hp; [|done].
    destruct (subtree _ db n' s) as [p'|] eqn:Hp'; [|done].
    simpl in Hq, Hq'. injection Hq as Hq. injection Hq' as Hq'.
    rewrite app_nil_r in Hq, Hq'. subst p p'.
    by apply (subtree_mono self db dt dt' wt wt' Hdt Hwt n' s _ n). }
  intros k. rewrite !elem_of_union, !elem_of_list_to_set, !list_elem_of_fmap.
  intros [?|(kw & -> & (e & -> & He)%list_elem_of_fmap)]; [by left|right].
  exists (entry_item e). split; [done|]. apply list_elem_of_fmap.
  exists e. split; [done|]. by apply Hsub.
Qed.

(** ** Sums of weights *)

(** Inequalities between polynomials in [Qc] are decided on [Q]. *)
Ltac qc_arith :=
  repeat match goal with
         | H : (_ ≤ _ ∧ _ ≤ _)%Qc |- _ => destruct H
         end;
  unfold Qcle, Qclt, Qcminus, Qcplus, Qcmult, Qcopp in *; simpl in *;
  rewrite ?Qred_correct in *; nra.

Lemma product_le_probabilistic_sum (a b : Qc) :
  (0 ≤ a ∧ a ≤ 1)%Qc → (0 ≤ b ∧ b ≤ 1)%Qc → (a * b ≤ a + b - a * b)%Qc.
Proof. intros. qc_arith. Qed.

Lemma product_nonneg (a b : Qc) : (0 ≤ a)%Qc → (0 ≤ b)%Qc → (0 ≤ a * b)%Qc.
Proof. intros. qc_arith. Qed.

Lemma quotient_in_unit (a b : Qc) :
  (0 ≤ a)%Qc → (a ≤ b)%Qc → (0 < b)%Qc → (0 ≤ a / b ∧ a / b ≤ 1)%Qc.
Proof.
  unfold Qcdiv, Qcinv, Qcle, Qclt, Qcmult. simpl. rewrite !Qred_correct.
  intros Ha Hab Hb. split.
  - apply Qmult_le_0_compat; [done|]. apply Qinv_le_0_compat. lra.
  - apply Qle_shift_div_r; [done|]. lra.
Qed.

Lemma quotient_nonneg (a b : Qc) : (0 ≤ a)%Qc → (0 < b)%Qc → (0 ≤ a / b)%Qc.
Proof.
  unfold Qcdiv, Qcinv, Qcle, Qclt, Qcmult. simpl. rewrite !Qred_correct.
  intros Ha Hb. apply Qmult_le_0_compat; [done|]. apply Qinv_le_0_compat. lra.
Qed.

Lemma default_unit_weight (n : gmap Z Qc) (k : Z) :
  unit_weights n → (0 ≤ default 0 (n !! k) ∧ default 0 (n !! k) ≤ 1)%Qc.
Proof.
  intros Hn. destruct (n !! k) as [w|] eqn:Hk; simpl; [by apply (Hn k)|].
  split; [apply Qcle_refl|by vm_compute].
Qed.

Global Instance sum_list_perm : Proper ((≡ₚ) ==> (=)) sum_list.
Proof.
  apply (foldr_permutation_proper (=)); [solve_proper|].
  intros a b c. by rewrite !Qcplus_assoc, (Qcplus_comm a b).
Qed.

Lemma sum_list_cons (x : Qc) (l : list Qc) :
  sum_list (x :: l) = (x + sum_list l)%Qc.
Proof. done. Qed.

Lemma sum_list_app (l1 l2 : list Qc) :
  sum_list (l1 ++ l2) = (sum_list l1 + sum_list l2)%Qc.
Proof.
  induction l1 as [|x l1 IH].
  - by rewrite Qcplus_0_l.
  - by rewrite <-app_comm_cons, !sum_list_cons, IH, Qcplus_assoc.
Qed.

Lemma sum_list_fmap_ext {A} (f g : A → Qc) (l : list A) :
  (∀ x, x ∈ l → f x = g x) → sum_list (f <$> l) = sum_list (g <$> l).
Proof.
  induction l as [|x l IH]; intros Hfg; [done|].
  rewrite !fmap_cons, !sum_list_cons, Hfg, IH; [done| |left].
  intros; apply Hfg; by right.
Qed.

Lemma sum_list_fmap_le {A} (f g : A → Qc) (l : list A) :
  (∀ x, x ∈ l → (f x ≤ g x)%Qc) → (sum_list (f <$> l) ≤ sum_list (g <$> l))%Qc.
Proof.
  induction l as [|x l IH]; intros Hfg; [apply Qcle_refl|].
  rewrite !fmap_cons, !sum_list_cons.
  apply Qcplus_le_compat; [apply Hfg; left|]. apply IH. intros; apply Hfg; by right.
Qed.

Lemma sum_list_fmap_zero {A} (f : A → Qc) (l : list A) :
  (∀ x, x ∈ l → f x = 0%Qc) → sum_list (f <$> l) = 0%Qc.
Proof.
  induction l as [|x l IH]; intros Hf; [done|].
  rewrite fmap_cons, sum_list_cons, Hf, IH; [done| |left].
  intros; apply Hf; by right.
Qed.

Lemma sum_list_fmap_nonneg {A} (f : A → Qc) (l : list A) :
  (∀ x, x ∈ l → (0 ≤ f x)%Qc) → (0 ≤ sum_list (f <$> l))%Qc.
Proof.
  intros Hf. rewrite <-(sum_list_fmap_zero (λ _, 0%Qc) l) by done.
  by apply sum_list_fmap_le.
Qed.

Lemma foldr_uncurry_sum (g : Z → Qc → Qc) (l : list (Z * Qc)) :
  foldr (uncurry (λ k w acc, (acc + g k w)%Qc)) 0%Qc l =
  sum_list ((λ kw, g kw.1 kw.2) <$> l).
Proof.
  induction l as [|[k w] l IH]; [done|].
  rewrite fmap_cons, sum_list_cons, <-IH. simpl. apply Qcplus_comm.
Qed.

Lemma foldr_acc_sum {A} (g : A → Qc) (l : list A) :
  foldr (λ x acc, (acc + g x)%Qc) 0%Qc l = sum_list (g <$> l).
Proof.
  induction l as [|x l IH]; [done|].
  rewrite fmap_cons, sum_list_cons, <-IH. simpl. apply Qcplus_comm.
Qed.

Lemma map_to_list_keys (n : gmap Z Qc) : (map_to_list n).*1 ≡ₚ elements (dom n).
Proof.
  apply NoDup_Permutation; [apply NoDup_fst_map_to_list|apply NoDup_elements|].
  intros k. rewrite elem_of_elements, elem_of_dom, list_elem_of_fmap. split.
  - intros ([k' w] & -> & Hkw%elem_of_map_to_list). by exists w.
  - intros [w Hw]. exists (k, w). split; [done|]. by apply elem_of_map_to_list.
Qed.

Lemma sum_list_union_zero (h : Z → Qc) (X Y : gset Z) :
  (∀ k, k ∉ X → h k = 0%Qc) →
  sum_list (h <$> elements (X ∪ Y)) = sum_list (h <$> elements X).
Proof.
  intros Hh.
  rewrite (union_difference_L X (X ∪ Y)) by set_solver.
  rewrite elements_disj_union by set_solver.
  rewrite fmap_app, sum_list_app,
    (sum_list_fmap_zero h (elements ((X ∪ Y) ∖ X))).
  - by rewrite Qcplus_0_r.
  - intros k Hk%elem_of_elements. apply Hh. set_solver.
Qed.

(** [inter] as a sum over the keys of either neighbourhood. *)
Lemma inter_sum (n1 n2 : gmap Z Qc) :
  inter n1 n2 =
  sum_list ((λ k, default 0 (n1 !! k) * default 0 (n2 !! k))%Qc <$>
            elements (dom n1 ∪ dom n2)).
Proof.
  unfold inter. rewrite map_fold_foldr.
  rewrite (foldr_uncurry_sum (λ k w, (w * default 0 (n2 !! k))%Qc)).
  rewrite sum_list_union_zero.
  - rewrite <-map_to_list_keys, <-list_fmap_compose.
    apply sum_list_fmap_ext. intros [k w] Hkw%elem_of_map_to_list. simpl.
    by rewrite Hkw.
  - intros k Hk%not_elem_of_dom. rewrite Hk. simpl. apply Qcmult_0_l.
Qed.

Lemma union_sum (n1 n2 : gmap Z Qc) :
  union n1 n2 = sum_list (union_term n1 n2 <$> elements (dom n1 ∪ dom n2)).
Proof. unfold union, set_fold. simpl. apply foldr_acc_sum. Qed.

(** [inter] and [union] accumulate the terms of their keys from 0, in
    the order of a listing of the keys. *)
Lemma foldr_accumulate {A} (g : A → Qc) (l : list A) :
  foldr (λ x acc, (acc + g x)%Qc) 0%Qc l =
  foldl (λ result x, (result + g x)%Qc) 0%Qc (reverse l).
Proof.
  induction l as [|x l IH]; [done|].
  by rewrite reverse_cons, foldl_snoc, <-IH.
Qed.

Lemma foldr_ext_elem {A B} (f g : B → A → A) (a : A) (l : list B) :
  (∀ x acc, x ∈ l → f x acc = g x acc) → foldr f a l = foldr g a l.
Proof.
  induction l as [|x l IH]; intros Hfg; [done|]. simpl.
  rewrite IH by (intros; apply Hfg; by right). apply Hfg. left.
Qed.

Lemma inter_accumulates (n1 n2 : gmap Z Qc) :
  accumulates (inter n1 n2) (inter_term n1 n2) (dom n1).
Proof.
  exists (reverse (map_to_list n1).*1). split.
  - by rewrite reverse_Permutation, map_to_list_keys.
  - unfold inter. rewrite map_fold_foldr, <-foldr_accumulate, foldr_fmap.
    apply foldr_ext_elem. intros [k w] acc Hkw%elem_of_map_to_list. simpl.
    unfold inter_term. by rewrite Hkw.
Qed.

Lemma union_accumulates (n1 n2 : gmap Z Qc) :
  accumulates (union n1 n2) (union_term n1 n2) (dom n1 ∪ dom n2).
Proof.
  exists (reverse (elements (dom n1 ∪ dom n2))). split.
  - apply reverse_Permutation.
  - unfold union, set_fold. simpl. apply foldr_accumulate.
Qed.


(** ** Neighbourhoods of items and the comparison *)

Lemma merge_neighbors_record_all (result nb : gmap Z Qc) :
  merge_neighbors result nb = record_all result (map_to_list nb).
Proof.
  unfold merge_neighbors, record_all. rewrite map_fold_foldr.
  induction (map_to_list nb) as [|[k w] l IH]; simpl; [done|]. by rewrite IH.
Qed.

Lemma for_loop_cons {A S} (body : S → A → outcome S) x items s :
  for_loop body (x :: items) s = s' ← body s x; for_loop body items s'.
Proof. done. Qed.

Section Neighbourhoods.
Variables (self : ferreira) (db : database) (fuel : nat).

Lemma construct_loop_cons ch chains result :
  for_loop (merge_chain self db fuel) (ch :: chains) result =
  match find_and_weigh_neighbors self db fuel ch with
  | Return nb =>
      for_loop (merge_chain self db fuel) chains (merge_neighbors result nb)
  | Raise e => Raise e
  | OutOfFuel => OutOfFuel
  end.
Proof.
  rewrite for_loop_cons. unfold merge_chain at 2.
  by destruct (find_and_weigh_neighbors self db fuel ch).
Qed.

Lemma construct_loop_spec chains : ∀ result n,
  for_loop (merge_chain self db fuel) chains result = Return n →
  ∃ items,
    n = record_all result items ∧
    (∀ x, x ∈ items ↔
          ∃ ch nb, ch ∈ chains ∧
                   find_and_weigh_neighbors self db fuel ch = Return nb ∧
                   x ∈ map_to_list nb) ∧
    (∀ ch, ch ∈ chains →
           ∃ nb, find_and_weigh_neighbors self db fuel ch = Return nb).
Proof.
  induction chains as [|ch chains IH]; intros result n.
  - intros [= <-]. exists []. split; [done|]. split.
    + intros x. split; [by intros ?%elem_of_nil|].
      by intros (? & ? & ?%elem_of_nil & _).
    + by intros ? ?%elem_of_nil.
  - rewrite construct_loop_cons.
    destruct (find_and_weigh_neighbors self db fuel ch) as [nb| |] eqn:Hnb;
      [|done..].
    intros (items & -> & Hitems & Hall)%IH.
    exists (items ++ map_to_list nb). split; [|split].
    + by rewrite record_all_app, merge_neighbors_record_all.
    + intros x. rewrite elem_of_app, Hitems. split.
      * intros [(ch' & nb' & ? & ? & ?)|?].
        -- exists ch', nb'. split; [by right|done].
        -- exists ch, nb. split; [left|done].
      * intros (ch' & nb' & [->|?]%elem_of_cons & Hnb' & ?).
        -- right. congruence.
        -- left. by exists ch', nb'.
    + intros ch' [->|?]%elem_of_cons; [by exists nb|by apply Hall].
Qed.

Lemma construct_loop_defined chains : ∀ result,
  (∀ ch, ch ∈ chains →
         ∃ nb, find_and_weigh_neighbors self db fuel ch = Return nb) →
  ∃ n, for_loop (merge_chain self db fuel) chains result = Return n.
Proof.
  induction chains as [|ch chains IH]; intros result Hall.
  - by eexists.
  - rewrite construct_loop_cons.
    destruct (Hall ch) as [nb ->]; [left|].
    apply (IH (merge_neighbors result nb)). intros; apply Hall; by right.
Qed.

(** The neighbourhood of an item depends on its chains as a set only. *)
Lemma construct_neighborhood_ext chains1 chains2 n :
  (∀ ch, ch ∈ chains1 ↔ ch ∈ chains2) →
  construct_neighborhood self db fuel chains1 = Return n →
  construct_neighborhood self db fuel chains2 = Return n.
Proof.
  intros Hset (items1 & -> & Hitems1 & Hall1)%construct_loop_spec.
  destruct (construct_loop_defined chains2 ∅) as [n2 Hn2].
  { intros ch Hch. apply Hall1. by apply Hset. }
  unfold construct_neighborhood. rewrite Hn2. f_equal.
  apply construct_loop_spec in Hn2 as (items2 & -> & Hitems2 & _).
  apply record_all_ext. intros x. rewrite Hitems1, Hitems2.
  by setoid_rewrite Hset.
Qed.

End Neighbourhoods.

Lemma sum_list_fmap_ge_elem {A} (f : A → Qc) (l : list A) (x : A) :
  (∀ y, y ∈ l → (0 ≤ f y)%Qc) → x ∈ l → (f x ≤ sum_list (f <$> l))%Qc.
Proof.
  intros Hf (l1 & l2 & ->)%list_elem_of_split.
  rewrite fmap_app, fmap_cons, sum_list_app, sum_list_cons.
  assert (0 ≤ sum_list (f <$> l1))%Qc as H1.
  { apply sum_list_fmap_nonneg. intros; apply Hf, elem_of_app; by left. }
  assert (0 ≤ sum_list (f <$> l2))%Qc as H2.
  { apply sum_list_fmap_nonneg. intros; apply Hf, elem_of_app; right; by right. }
  revert H1 H2. generalize (sum_list (f <$> l1)) (sum_list (f <$> l2)) (f x).
  intros a b c ? ?. qc_arith.
Qed.

Lemma crisp_default (n : gmap Z Qc) (k : Z) :
  crisp n → default 0%Qc (n !! k) = 0%Qc ∨ default 0%Qc (n !! k) = 1%Qc.
Proof. intros Hn. destruct (n !! k) eqn:Hk; simpl; [by apply (Hn k)|by left]. Qed.

Lemma crisp_inter_union (n : gmap Z Qc) : crisp n → inter n n = union n n.
Proof.
  intros Hn. rewrite inter_sum, union_sum. apply sum_list_fmap_ext.
  intros k _. unfold union_term. simpl.
  destruct (crisp_default n k Hn) as [-> | ->]; ring.
Qed.

Lemma crisp_union_pos (n : gmap Z Qc) (k : Z) :
  crisp n → n !! k = Some 1%Qc → union n n ≠ 0%Qc.
Proof.
  intros Hn Hk Hzero.
  assert (union_term n n k ≤ union n n)%Qc as Hle.
  { rewrite union_sum. apply sum_list_fmap_ge_elem.
    - intros k' _. unfold union_term. simpl.
      destruct (crisp_default n k' Hn) as [-> | ->]; by vm_compute.
    - apply elem_of_elements, elem_of_union. left. apply elem_of_dom. by eexists. }
  rewrite Hzero in Hle. unfold union_term in Hle. rewrite Hk in Hle.
  by vm_compute in Hle.
Qed.

Lemma crisp_similarity (n : gmap Z Qc) (k : Z) :
  crisp n → n !! k = Some 1%Qc → similarity n n = Return 1%Qc.
Proof.
  intros Hn Hk. unfold similarity.
  rewrite decide_False by by apply (crisp_union_pos n k).
  rewrite crisp_inter_union by done. f_equal.
  apply Qcmult_inv_r. by apply (crisp_union_pos n k).
Qed.

(** ** Properties of the public entry points *)

(** C2 (amended): an iteration of the expansion on an entry with
    remaining budget [b] retrieves no hierarchy row when the hierarchy
    weight is 0: the work list only receives the entries of the
    existential relations.  Otherwise the work list also receives the
    entries of the hierarchy, which are exactly those that pass the
    admission test among: without subclass discovery, the superclasses at
    every distance at most [b]; with subclass discovery, the superclasses
    at distance exactly 1, whatever [b], together with the subclasses at
    every distance at most [b]. *)
Theorem hierarchy_expansion_pushes self db e hw :
  property_weights self !! None = Some hw →
  let b := distance_threshold self - entry_distance e in
  let result' result := record_weight result (entry_concept e) (entry_weight e) in
  (hw = 0%Qc →
   pushes self db e = Return (relation_pushes self db e) ∧
   ∀ fuel todo result,
     expand_loop self db (S fuel) (e :: todo) result =
     expand_loop self db fuel (reverse (relation_pushes self db e) ++ todo)
                 (result' result)) ∧
  (hw ≠ 0%Qc →
   pushes self db e =
     Return (relation_pushes self db e ++ hierarchy_pushes self db hw e) ∧
   (∀ fuel todo result,
      expand_loop self db (S fuel) (e :: todo) result =
      expand_loop self db fuel
        (reverse (relation_pushes self db e ++ hierarchy_pushes self db hw e) ++
         todo)
        (result' result)) ∧
   ∀ e', e' ∈ hierarchy_pushes self db hw e ↔
     ∃ relative dist,
       ((∃ r, r ∈ hierarchy db ∧ hier_subclass r = entry_concept e ∧
              hier_superclass r = relative ∧ hier_distance r = dist ∧
              if discover_subclasses self then dist = 1 else dist ≤ b) ∨
        (discover_subclasses self = true ∧
         ∃ r, r ∈ hierarchy db ∧ hier_superclass r = entry_concept e ∧
              hier_subclass r = relative ∧ hier_distance r = dist ∧ dist ≤ b)) ∧
       admitted self (entry_distance e + dist)
         (entry_weight e * pypow hw dist)%Qc = true ∧
       e' = (relative, entry_distance e + dist,
             (entry_weight e * pypow hw dist)%Qc)).
Proof.
  intros Hhw b result'. split.
  - intros ->.
    assert (pushes self db e = Return (relation_pushes self db e)) as Hpush.
    { unfold pushes. by rewrite Hhw, decide_True. }
    split; [done|]. intros fuel todo result.
    by rewrite expand_loop_cons, Hpush.
  - intros Hne.
    assert (pushes self db e =
            Return (relation_pushes self db e ++ hierarchy_pushes self db hw e))
      as Hpush.
    { unfold pushes. by rewrite Hhw, decide_False. }
    split; [done|]. split.
    + intros fuel todo result. by rewrite expand_loop_cons, Hpush.
    + intros e'. rewrite elem_of_hierarchy_pushes.
      by setoid_rewrite elem_of_get_hierarchy_query.
Qed.

Section EntryPoints.
Variable get_id : pyval → option string → outcome Z.
Variable to_seq : pyval → outcome (list pyval).

(** C6 (amended): [compare] on a pair of items and on the swapped pair
    combines the same two neighbourhoods, in either order; the
    intersection and the union are symmetric summand by summand: each
    accumulates, over a listing of the same concepts, terms that do not
    depend on the order of the two neighbourhoods, the terms of the
    intersection being 0 outside the common concepts.  The listings, and
    with them the order of the additions, may differ. *)
Theorem compare_symmetric_summands self db fuel one two chains1 chains2 n1 n2 :
  convert_input get_id to_seq one = Return chains1 →
  convert_input get_id to_seq two = Return chains2 →
  construct_neighborhood self db fuel chains1 = Return n1 →
  construct_neighborhood self db fuel chains2 = Return n2 →
  (compare get_id to_seq self db fuel one two = similarity n1 n2 ∧
   compare get_id to_seq self db fuel two one = similarity n2 n1) ∧
  (accumulates (inter n1 n2) (inter_term n1 n2) (dom n1) ∧
   accumulates (inter n2 n1) (inter_term n2 n1) (dom n2) ∧
   accumulates (union n1 n2) (union_term n1 n2) (dom n1 ∪ dom n2) ∧
   accumulates (union n2 n1) (union_term n2 n1) (dom n1 ∪ dom n2)) ∧
  ∀ k, inter_term n1 n2 k = inter_term n2 n1 k ∧
       union_term n1 n2 k = union_term n2 n1 k ∧
       (k ∉ dom n1 ∩ dom n2 → inter_term n1 n2 k = 0%Qc).
Proof.
  intros H1 H2 Hn1 Hn2. split; [|split].
  - unfold compare. by rewrite H1, H2; simpl; rewrite Hn1, Hn2.
  - repeat split; try apply inter_accumulates; try apply union_accumulates.
    rewrite (union_comm_L (dom n1)). apply union_accumulates.
  - intros k. unfold inter_term, union_term. simpl.
    split; [apply Qcmult_comm|]. split; [ring|].
    rewrite elem_of_intersection, !elem_of_dom.
    intros Hk. destruct (n1 !! k) as [w1|]; simpl; [|apply Qcmult_0_l].
    destruct (n2 !! k) as [w2|]; simpl; [|apply Qcmult_0_r].
    destruct Hk. by split.
Qed.

(** C1 (amended): when two items have the same set of normalized chains
    and the expansion of the first returns the neighbourhood [n], then
    [compare] is the similarity of [n] with itself; it returns exactly 1
    when every weight of [n] is 0 or 1 and some weight is 1. *)
Theorem identical_chain_sets self db fuel one two chains1 chains2 n :
  convert_input get_id to_seq one = Return chains1 →
  convert_input get_id to_seq two = Return chains2 →
  (∀ ch, ch ∈ chains1 ↔ ch ∈ chains2) →
  construct_neighborhood self db fuel chains1 = Return n →
  compare get_id to_seq self db fuel one two = similarity n n ∧
  (crisp n → (∃ k, n !! k = Some 1%Qc) →
   compare get_id to_seq self db fuel one two = Return 1%Qc).
Proof.
  intros H1 H2 Hset Hn.
  assert (compare get_id to_seq self db fuel one two = similarity n n) as Hcmp.
  { unfold compare. rewrite H1, H2. simpl.
    rewrite Hn, (construct_neighborhood_ext self db fuel chains1 chains2 n Hset Hn).
    done. }
  split; [done|]. intros Hcrisp [k Hk]. rewrite Hcmp.
  by apply (crisp_similarity n k).
Qed.

Lemma mapM_not_raise {A B} (f : A → outcome B) (l : list A) (e : exn) :
  (∀ x, x ∈ l → f x ≠ Raise e) → mapM f l ≠ Raise e.
Proof.
  induction l as [|x l IH]; intros Hf; simpl; [done|].
  destruct (f x) as [y|e'|] eqn:Hx; simpl; [| |done].
  - destruct (mapM f l) as [k|e'|] eqn:Hl; simpl; [done| |done].
    intros [= ->]. apply IH; [|done]. intros; apply Hf; by right.
  - intros [= ->]. by apply (Hf x); [left|].
Qed.

Lemma chain_to_ids_not_InvalidInputShape chain :
  (∀ v k, get_id v k ≠ Raise InvalidInputShape) →
  chain_to_ids get_id chain ≠ Raise InvalidInputShape.
Proof.
  intros Hid. unfold chain_to_ids. destruct (last chain) as [c|]; [|done].
  destruct (mapM _ (removelast chain)) as [ids|e|] eqn:Hids; simpl; [| |done].
  - destruct (get_id c None) as [i|e|] eqn:Hc; simpl; [done| |done].
    intros [= ->]. by apply (Hid c None).
  - intros [= ->]. revert Hids. apply mapM_not_raise. intros; apply Hid.
Qed.

(** C9 (amended): an item that is not a string and cannot be iterated (a
    number or [None]) makes normalization raise [TypeError], and an item
    whose conversion meets an empty chain raises [IndexError];
    [InvalidInputShape] is raised for no item unless the external
    utilities raise it themselves. *)
Theorem convert_input_errors item :
  (item = PyNone ∨ (∃ z, item = PyInt z) →
   convert_input get_id to_seq item = Raise TypeError) ∧
  (∀ first rest chains, item = PyList (first :: rest) →
     to_seq first = Return [] → mapM to_seq rest = Return chains →
     convert_input get_id to_seq item = Raise IndexError) ∧
  ((∀ v k, get_id v k ≠ Raise InvalidInputShape) →
   (∀ v, to_seq v ≠ Raise InvalidInputShape) →
   convert_input get_id to_seq item ≠ Raise InvalidInputShape).
Proof.
  split; [|split].
  - intros [->|[z ->]]; done.
  - intros first rest chains -> Hfirst Hrest. unfold convert_input. simpl.
    by rewrite Hfirst, Hrest.
  - intros Hid Hseq. unfold convert_input.
    destruct item as [s|z| |elements]; simpl; try done.
    + apply (mapM_not_raise (chain_to_ids get_id) [[PyStr s]]).
      intros; by apply chain_to_ids_not_InvalidInputShape.
    + destruct (mapM to_seq elements) as [chains|e|] eqn:Hch; simpl; [| |done].
      * apply mapM_not_raise. intros; by apply chain_to_ids_not_InvalidInputShape.
      * intros [= ->]. revert Hch. apply mapM_not_raise. intros; apply Hseq.
Qed.

End EntryPoints.

Section Construction.
Variable get_id : pyval → option string → outcome Z.
Variable math_log : Z → Qc.

(** C3 (amended): a frequency-derivation directive supplied through the
    [property_weights] option never yields a comparer; supplied through
    the [default_weight] option, the weight table is the result of
    log-frequency weighting, then the explicit per-property weights,
    then the hierarchy weight under the sentinel key, and the default
    weight of unlisted properties is 0. *)
Theorem log_scale_directive o db :
  (∀ ls self, opt_property_weights o = PropertyLogScale ls →
     init get_id math_log o db ≠ Return self) ∧
  (∀ ls self, opt_default_weight o = DefaultLogScale ls →
     init get_id math_log o db = Return self →
     default_weight self = 0%Qc ∧
     ∃ derived table,
       get_weights math_log ls db = Return derived ∧
       explicit_weights get_id (opt_property_weights o) derived = Return table ∧
       property_weights self = <[None := opt_hierarchy_weight o]> table).
Proof.
  unfold init. split.
  - intros ls self ->.
    by destruct (initial_weights math_log (opt_default_weight o) db)
      as [[w dw]| |]; simpl.
  - intros ls self ->. simpl.
    destruct (get_weights math_log ls db) as [derived| |]; simpl; [|done..].
    destruct (explicit_weights get_id (opt_property_weights o) derived)
      as [table| |] eqn:Htable; simpl; [|done..].
    intros [= <-]. split; [done|]. by exists derived, table.
Qed.

End Construction.

(** Closed decidable facts are settled by evaluation. *)
Ltac by_evaluation := apply (bool_decide_unpack _); vm_compute; exact I.

(** ** The claims on the example ontology *)

(** [example_self] is what the constructor builds from the defaults. *)
Lemma init_default_options get_id math_log db :
  init get_id math_log default_options db = Return example_self.
Proof. done. Qed.

(** C1, as stated, fails: with the default options the concept [A]
    compared with itself scores 213/287, not 1. *)
Lemma compare_identical_below_one :
  this <$> compare example_get_id example_to_seq example_self example_db 100
             (PyStr "A") (PyStr "A") = Return (213 # 287)%Q ∧
  compare example_get_id example_to_seq example_self example_db 100
    (PyStr "A") (PyStr "A") ≠ Return 1%Qc.
Proof.
  split; [by vm_compute|].
  intros H. apply (f_equal (fmap this)) in H. by vm_compute in H.
Qed.

(** [A] against the list [A, A] on the comparer whose weights are all 1. *)
Lemma identical_chain_sets_witness :
  let n : gmap Z Qc := {[ 1 := 1%Qc; 2 := 1%Qc; 3 := 1%Qc ]} in
  compare example_get_id example_to_seq crisp_self example_db 100
    (PyStr "A") (PyList [PyStr "A"; PyStr "A"]) = similarity n n ∧
  (crisp n → (∃ k, n !! k = Some 1%Qc) →
   compare example_get_id example_to_seq crisp_self example_db 100
     (PyStr "A") (PyList [PyStr "A"; PyStr "A"]) = Return 1%Qc).
Proof.
  apply (identical_chain_sets example_get_id example_to_seq crisp_self example_db
           100 (PyStr "A") (PyList [PyStr "A"; PyStr "A"]) [[1]] [[1]; [1]]).
  - vm_compute; reflexivity.
  - vm_compute; reflexivity.
  - intros ch. rewrite !elem_of_cons. tauto.
  - vm_compute; reflexivity.
Defined.

(** C2, as stated, fails: with subclass discovery the iteration on [A]
    appends, from the hierarchy, its direct superclass [B] only; the
    superclass [C], at distance 2 within a budget of 3 and with a weight
    16/25 above the threshold, is not retrieved. *)
Lemma direct_superclasses_only :
  (λ new : list entry, (λ e' : entry, (e'.1, this e'.2)) <$> new) <$>
    pushes discovering_self example_db (1, 0, 1%Qc) =
  Return [(3, 1, (7 # 10)%Q); (2, 1, (7 # 10)%Q); (3, 2, (49 # 100)%Q);
          (2, 1, (4 # 5)%Q)] ∧
  ¬ pushes_superclasses_within_budget discovering_self example_db (1, 0, 1%Qc).
Proof.
  split; [by vm_compute|]. intros H.
  specialize (H {| hier_subclass := 1; hier_superclass := 3; hier_distance := 2 |}
                (Q2Qc (8 # 10)) _ ltac:(by do 2 right; left) eq_refl
                ltac:(by vm_compute) ltac:(by vm_compute) eq_refl
                ltac:(by vm_compute)).
  apply (list_elem_of_fmap_2 (λ e' : entry, (e'.1, this e'.2))) in H.
  vm_compute in H.
  repeat (apply elem_of_cons in H as [H|H]; [done|]).
  by apply elem_of_nil in H.
Qed.

(** C3, as stated, fails: the directive passed as [property_weights]
    makes the constructor raise [AttributeError]. *)
Lemma directive_as_property_weights_raises :
  opt_property_weights directive_as_property_weights =
    PropertyLogScale {| scale_min := 0; scale_max := 1 |} ∧
  init example_get_id example_log directive_as_property_weights example_db =
    Raise AttributeError.
Proof. split; by vm_compute. Qed.

(** The directive passed as [default_weight] on the example store. *)
Lemma log_scale_directive_witness :
  ∃ self,
    init example_get_id example_log directive_as_default_weight example_db =
      Return self ∧
    default_weight self = 0%Qc ∧
    ∃ derived table,
      get_weights example_log {| scale_min := 0; scale_max := 1 |} example_db =
        Return derived ∧
      explicit_weights example_get_id
        (opt_property_weights directive_as_default_weight) derived = Return table ∧
      property_weights self =
        <[None := opt_hierarchy_weight directive_as_default_weight]> table.
Proof.
  eexists. split; [vm_compute; reflexivity|].
  apply (proj2 (log_scale_directive example_get_id example_log
                  directive_as_default_weight example_db)
               {| scale_min := 0; scale_max := 1 |}).
  - reflexivity.
  - vm_compute; reflexivity.
Defined.

(** The example store is well formed, so the expansion of [A] halts. *)
Lemma expansion_terminates_witness :
  store_wf example_db ∧
  (∀ e new e', pushes example_self example_db e = Return new → e' ∈ new →
     entry_distance e < entry_distance e' ≤ distance_threshold example_self) ∧
  (∃ fuel, ∀ fuel', (fuel ≤ fuel')%nat →
     find_and_weigh_neighbors example_self example_db fuel' [1] ≠ OutOfFuel) ∧
  ([1] ≠ [] → is_Some (property_weights example_self !! None) →
   ∃ fuel r, ∀ fuel', (fuel ≤ fuel')%nat →
     find_and_weigh_neighbors example_self example_db fuel' [1] = Return r).
Proof.
  assert (store_wf example_db) as Hwf by by_evaluation.
  split; [done|].
  apply (expansion_terminates example_self example_db [1] Hwf).
Defined.

(** The expansion of [A] with the default options, in any order. *)
Lemma traversal_order_irrelevant_witness :
  ∃ r, find_and_weigh_neighbors example_self example_db 100 [1] = Return r ∧
       expand_any_order example_self example_db [1] r ∧
       ∀ r', expand_any_order example_self example_db [1] r' → r' = r.
Proof.
  eexists. split; [vm_compute; reflexivity|].
  apply (traversal_order_irrelevant example_self example_db 100 [1]).
  vm_compute; reflexivity.
Defined.



(** The default thresholds against a shorter distance and a higher weight
    threshold. *)
Lemma pruning_monotone_witness :
  ∃ r r',
    find_and_weigh_neighbors
      (with_thresholds example_self 3 (Q2Qc (3 # 10))) example_db 100 [1] = Return r ∧
    find_and_weigh_neighbors
      (with_thresholds example_self 1 (Q2Qc (8 # 10))) example_db 100 [1] = Return r' ∧
    dom r' ⊆ dom r.
Proof.
  eexists _, _. split; [vm_compute; reflexivity|].
  split; [vm_compute; reflexivity|].
  apply (pruning_monotone example_self example_db 3 1 (Q2Qc (3 # 10))
           (Q2Qc (8 # 10)) 100 100 [1]).
  - lia.
  - by_evaluation.
  - vm_compute; reflexivity.
  - vm_compute; reflexivity.
Defined.

(** C9, as stated, fails: a number is none of the accepted shapes and
    normalization raises [TypeError]; a list holding an empty chain raises
    [IndexError]. *)
Lemma number_raises_TypeError :
  accepted_shape (PyInt 5) = false ∧
  convert_input example_get_id example_to_seq (PyInt 5) = Raise TypeError ∧
  convert_input example_get_id example_to_seq (PyInt 5) ≠ Raise InvalidInputShape ∧
  accepted_shape (PyList [PyList []]) = false ∧
  convert_input example_get_id example_to_seq (PyList [PyList []]) =
    Raise IndexError.
Proof. repeat split; by vm_compute. Qed.

(** The chain [part_of.A] under thresholds that its seed does not meet:
    its weight 7/10 is below 9/10 and its distance 1 is above 0. *)
Lemma seed_always_recorded_witness :
  let self := with_thresholds example_self 0 (Q2Qc (9 # 10)) in
  let chain : list Z := [10; 1] in
  ∃ r, find_and_weigh_neighbors self example_db 100 chain = Return r ∧
       ∃ w, r !! 1 = Some w ∧
            (get_properties_weight self (removelast chain) * get_ic self 1%Z ≤ w)%Qc.
Proof.
  eexists. split; [vm_compute; reflexivity|].
  apply (seed_always_recorded
           (with_thresholds example_self 0 (Q2Qc (9 # 10))) example_db 100 [10; 1]).
  - vm_compute; reflexivity.
  - reflexivity.
Defined.

(** With subclass discovery the iteration on [A] appends its direct
    superclass [B]. *)
Lemma hierarchy_expansion_pushes_witness :
  let hw := Q2Qc (8 # 10) in
  (2, 0 + 1, (1 * pypow hw 1)%Qc) ∈
  hierarchy_pushes discovering_self example_db hw (1, 0, 1%Qc).
Proof.
  destruct (hierarchy_expansion_pushes discovering_self example_db (1, 0, 1%Qc)
              (Q2Qc (8 # 10))) as [_ H]; [vm_compute; reflexivity|].
  destruct H as (_ & _ & H); [by vm_compute|].
  apply H. exists 2, 1. split; [|split; [vm_compute; reflexivity|reflexivity]].
  left. exists {| hier_subclass := 1; hier_superclass := 2; hier_distance := 1 |}.
  repeat split. left.
Defined.

(** [A] against the item made of [B] and [A]. *)
Lemma compare_symmetric_summands_witness :
  ∃ n1 n2 : gmap Z Qc,
    construct_neighborhood example_self example_db 100 [[1]] = Return n1 ∧
    construct_neighborhood example_self example_db 100 [[2]; [1]] = Return n2 ∧
    (compare example_get_id example_to_seq example_self example_db 100
       (PyStr "A") (PyList [PyStr "B"; PyStr "A"]) = similarity n1 n2 ∧
     compare example_get_id example_to_seq example_self example_db 100
       (PyList [PyStr "B"; PyStr "A"]) (PyStr "A") = similarity n2 n1) ∧
    (accumulates (inter n1 n2) (inter_term n1 n2) (dom n1) ∧
     accumulates (inter n2 n1) (inter_term n2 n1) (dom n2) ∧
     accumulates (union n1 n2) (union_term n1 n2) (dom n1 ∪ dom n2) ∧
     accumulates (union n2 n1) (union_term n2 n1) (dom n1 ∪ dom n2)) ∧
    ∀ k, inter_term n1 n2 k = inter_term n2 n1 k ∧
         union_term n1 n2 k = union_term n2 n1 k ∧
         (k ∉ dom n1 ∩ dom n2 → inter_term n1 n2 k = 0%Qc).
Proof.
  eexists _, _. split; [vm_compute; reflexivity|].
  split; [vm_compute; reflexivity|].
  apply (compare_symmetric_summands example_get_id example_to_seq example_self
           example_db 100 (PyStr "A") (PyList [PyStr "B"; PyStr "A"])
           [[1]] [[2]; [1]]); vm_compute; reflexivity.
Defined.

(** C6, as stated, fails on binary64 numbers: with the default options
    the neighbourhood of [A] lists the concepts [A], [C], [B] and that of
    the item made of [B] and [A] lists [B], [C], [A]; [inter] adds the
    same three products in these two orders and the two sums, hence the
    two scores, differ in the last place, in whatever order the set of
    concepts of [union] is walked. *)
Lemma compare_asymmetric_binary64 :
  let one := PyStr "A" in
  let two := PyList [PyStr "B"; PyStr "A"] in
  Binary64.construct_neighborhood example_pow binary64_self example_db 100
    [[1]] = Return [(1, 1%float); (3, 0.7%float); (2, 0.8%float)] ∧
  Binary64.construct_neighborhood example_pow binary64_self example_db 100
    [[2]; [1]] = Return [(2, 1%float); (3, 0.8%float); (1, 1%float)] ∧
  Binary64.inter [(1, 1%float); (3, 0.7%float); (2, 0.8%float)]
    [(2, 1%float); (3, 0.8%float); (1, 1%float)] = 0x1.2e147ae147ae2p+1%float ∧
  Binary64.inter [(2, 1%float); (3, 0.8%float); (1, 1%float)]
    [(1, 1%float); (3, 0.7%float); (2, 0.8%float)] = 0x1.2e147ae147ae1p+1%float ∧
  Forall (λ order,
     Binary64.compare example_pow (λ _, order) example_get_id example_to_seq
       binary64_self example_db 100 one two =
       Return 0x1.9afe422d4766dp-1%float ∧
     Binary64.compare example_pow (λ _, order) example_get_id example_to_seq
       binary64_self example_db 100 two one =
       Return 0x1.9afe422d4766cp-1%float)
    (permutations [1; 2; 3]) ∧
  (0x1.9afe422d4766cp-1 <? 0x1.9afe422d4766dp-1)%float = true.
Proof.
  do 4 (split; [vm_compute; reflexivity|]).
  split; [|vm_compute; reflexivity].
  assert (permutations [1; 2; 3] =
          [[1; 2; 3]; [2; 1; 3]; [2; 3; 1]; [1; 3; 2]; [3; 1; 2]; [3; 2; 1]])
    as -> by (vm_compute; reflexivity).
  repeat (apply Forall_cons; split; [split; vm_compute; reflexivity|]).
  apply Forall_nil_2.
Qed.

(** [None] as an item. *)
Lemma convert_input_errors_witness :
  convert_input example_get_id example_to_seq PyNone = Raise TypeError.
Proof.
  apply (proj1 (convert_input_errors example_get_id example_to_seq PyNone)).
  by left.
Defined.

(** * Further properties of the code *)

(** ** Property-chain weights *)

Lemma unit_interval_mult (a b : Qc) :
  unit_interval a → unit_interval b → unit_interval (a * b).
Proof. unfold unit_interval. intros [? ?] [? ?]. split; qc_arith. Qed.

Lemma unit_interval_1 : unit_interval 1.
Proof. split; by vm_compute. Qed.

Lemma unit_interval_0 : unit_interval 0.
Proof. split; by vm_compute. Qed.

Lemma property_weight_unit self prop :
  unit_config self →
  unit_interval (default (default_weight self) (property_weights self !! Some prop)).
Proof.
  intros (Htable & Hdefault & _).
  destruct (property_weights self !! Some prop) as [w|] eqn:Hw; simpl; [|done].
  by apply (Htable (Some prop)).
Qed.

Lemma get_properties_weight_unit_interval self props :
  unit_config self → unit_interval (get_properties_weight self props).
Proof.
  intros Hunit. unfold get_properties_weight.
  generalize unit_interval_1. generalize 1%Qc.
  induction props as [|p props IH]; intros a Ha; simpl; [done|].
  apply IH, unit_interval_mult; [done|by apply property_weight_unit].
Qed.

(** X2: when the weights of the table and the default weight lie in
    [[0,1]], so does the weight of every property chain. *)
Theorem get_properties_weight_unit self props :
  unit_table self →
  (0 ≤ get_properties_weight self props ∧ get_properties_weight self props ≤ 1)%Qc.
Proof.
  intros [Htable Hdefault].
  change (unit_interval (get_properties_weight self props)).
  unfold get_properties_weight.
  generalize unit_interval_1. generalize 1%Qc.
  induction props as [|p props IH]; intros a Ha; simpl; [done|].
  apply IH, unit_interval_mult; [done|].
  destruct (property_weights self !! Some p) as [w|] eqn:Hw; simpl; [|done].
  by apply (Htable (Some p)).
Qed.

(** ** The neighbourhood as the reachable entries *)

Section Reachable.
Variables (self : ferreira) (db : database).

Lemma subtree_head n e p : subtree self db n e = Some p → ∃ q, p = e :: q.
Proof.
  destruct n as [|n]; [done|]. rewrite subtree_unfold.
  destruct (pushes self db e) as [new| |]; [|done..].
  destruct (forest_of (subtree self db n) new) as [q|]; [|done].
  intros [= <-]. by exists q.
Qed.

Lemma subtree_reachable s n : ∀ e p x,
  reachable self db s e → subtree self db n e = Some p → x ∈ p →
  reachable self db s x.
Proof.
  induction n as [|n IH]; intros e p x He; [done|]. rewrite subtree_unfold.
  destruct (pushes self db e) as [new| |] eqn:Hpush; [|done..].
  destruct (forest_of (subtree self db n) new) as [q|] eqn:Hq; [|done].
  intros [= <-] [->|Hx]%elem_of_cons; [done|].
  destruct (forest_of_elem _ _ _ _ Hq Hx) as (c & qc & Hc & Hqc & Hxc).
  apply (IH c qc x); [|done..]. by apply (reach_push self db s e new c).
Qed.

Lemma subtree_closed n : ∀ e p x new x',
  subtree self db n e = Some p → x ∈ p → pushes self db x = Return new →
  x' ∈ new → x' ∈ p.
Proof.
  induction n as [|n IH]; intros e p x new x'; [done|]. rewrite subtree_unfold.
  destruct (pushes self db e) as [new_e| |] eqn:Hpush; [|done..].
  destruct (forest_of (subtree self db n) new_e) as [q|] eqn:Hq; [|done].
  intros [= <-] [->|Hx]%elem_of_cons Hnew Hx'; right.
  - assert (new = new_e) as -> by congruence.
    destruct (forest_of_lookup _ _ _ x' Hq Hx') as (q' & Hq' & Hsub).
    apply Hsub. destruct (subtree_head _ _ _ Hq') as [? ->]. left.
  - destruct (forest_of_elem _ _ _ _ Hq Hx) as (c & qc & Hc & Hqc & Hxc).
    destruct (forest_of_lookup _ _ _ c Hq Hc) as (qc' & Hqc' & Hsub).
    assert (qc' = qc) as -> by congruence.
    apply Hsub. by apply (IH c qc x new x').
Qed.

(** A returned neighbourhood is the [max] aggregation of the weights of
    exactly the reachable entries. *)
Lemma find_and_weigh_neighbors_reachable fuel chain r :
  find_and_weigh_neighbors self db fuel chain = Return r →
  ∃ s p, seed self chain = Return s ∧
         r = record_all ∅ (entry_item <$> p) ∧
         ∀ x, x ∈ p ↔ reachable self db s x.
Proof.
  intros (s & n & q & Hs & Hq & ->)%find_and_weigh_neighbors_forest.
  exists s, (s :: q). split; [done|]. split; [done|].
  unfold forest in Hq. rewrite forest_of_cons in Hq.
  destruct (subtree self db n s) as [p|] eqn:Hp; [|done]. simpl in Hq.
  injection Hq as Hq. rewrite app_nil_r in Hq. subst p.
  intros x. split.
  - intros Hx. apply (subtree_reachable s n s (s :: q) x); [constructor|done..].
  - induction 1 as [|e new e' _ IH Hpush He']; [left|].
    by apply (subtree_closed n s (s :: q) e new e').
Qed.

Lemma reachable_admitted s e :
  reachable self db s e →
  e = s ∨ (entry_distance e ≤ distance_threshold self ∧
           (weight_threshold self ≤ entry_weight e)%Qc).
Proof.
  induction 1 as [|e new e' _ _ Hpush He']; [by left|right].
  apply pushes_Return in Hpush as (hw & _ & Hnew).
  destruct (Hnew _ He') as [Hr|[_ Hh]].
  - apply elem_of_relation_pushes in Hr as (r & _ & _ & _ & Hadm & ->).
    by apply admitted_spec in Hadm.
  - apply elem_of_hierarchy_pushes in Hh as (relative & dist & _ & Hadm & ->).
    by apply admitted_spec in Hadm.
Qed.

End Reachable.

Lemma record_all_attained (result : gmap Z Qc) (items : list (Z * Qc)) k w :
  record_all result items !! k = Some w →
  (k, w) ∈ items ∨ result !! k = Some w ∨ w = 0%Qc.
Proof.
  revert w. induction items as [|[k0 w0] items IH]; intros w; simpl.
  - intros ?. right. by left.
  - rewrite lookup_record_weight. case_decide as Hk.
    + subst k0. intros [= <-]. unfold pymax. case_decide; [left; left|].
      destruct (record_all result items !! k) as [v|] eqn:Hv; simpl.
      * destruct (IH v eq_refl) as [?|[?|?]]; [left; by right|right; by left|
                                                right; by right].
      * right. by right.
    + intros Hw. destruct (IH w Hw) as [?|[?|?]]; [left; by right|right; by left|
                                                    right; by right].
Qed.

Lemma record_all_nonneg (result : gmap Z Qc) (items : list (Z * Qc)) :
  map_Forall (λ _ w, (0 ≤ w)%Qc) result →
  map_Forall (λ _ w, (0 ≤ w)%Qc) (record_all result items).
Proof.
  intros Hres. induction items as [|[k0 w0] items IH]; simpl; [done|].
  intros k w. rewrite lookup_record_weight. case_decide as Hk; [|by apply IH].
  intros [= <-]. apply Qcle_trans with (default 0%Qc (record_all result items !! k0));
    [|apply pymax_le_l].
  destruct (record_all result items !! k0) as [v|] eqn:Hv; simpl;
    [by apply (IH k0)|apply Qcle_refl].
Qed.

(** X7: a returned neighbourhood holds, for every entry reachable from the
    seed through admitted pushes, the concept of the entry with at least
    its weight, and every weight it holds is the weight of a reachable
    entry with that concept, or 0. *)
Theorem neighborhood_is_reachable_max self db fuel chain r s :
  find_and_weigh_neighbors self db fuel chain = Return r →
  seed self chain = Return s →
  (∀ e, reachable self db s e →
        ∃ w, r !! entry_concept e = Some w ∧ (entry_weight e ≤ w)%Qc) ∧
  (∀ k w, r !! k = Some w →
          w = 0%Qc ∨
          ∃ e, reachable self db s e ∧ entry_concept e = k ∧ entry_weight e = w).
Proof.
  intros (s' & p & Hs' & -> & Hp)%find_and_weigh_neighbors_reachable Hs.
  assert (s' = s) as -> by congruence. split.
  - intros e He%Hp. apply record_all_ge.
    apply list_elem_of_fmap. by exists e.
  - intros k w [Hin|[Hempty|Hzero]]%record_all_attained; [|done|by left].
    right. apply list_elem_of_fmap in Hin as (e & Heq & He%Hp).
    exists e. unfold entry_item in Heq. by injection Heq as -> ->.
Qed.

(** X8: a returned neighbourhood holds no negative weight, whatever the
    configured weights are. *)
Theorem neighborhood_weights_nonneg self db fuel chain r k w :
  find_and_weigh_neighbors self db fuel chain = Return r →
  r !! k = Some w → (0 ≤ w)%Qc.
Proof.
  intros (s & n & q & _ & _ & ->)%find_and_weigh_neighbors_forest.
  by apply (record_all_nonneg ∅).
Qed.

(** X9: in a returned neighbourhood every concept other than the terminal
    concept of the chain has a weight of at least [weight_threshold]. *)
Theorem neighbors_meet_weight_threshold self db fuel chain r c k w :
  find_and_weigh_neighbors self db fuel chain = Return r →
  last chain = Some c → k ≠ c → r !! k = Some w →
  (weight_threshold self ≤ w)%Qc.
Proof.
  intros (s & p & Hs & -> & Hp)%find_and_weigh_neighbors_reachable Hlast Hk Hw.
  apply seed_Return in Hs as (c' & Hc' & ->).
  assert (c' = c) as -> by congruence.
  assert (k ∈ dom (record_all ∅ (entry_item <$> p))) as Hdom
    by (apply elem_of_dom; by eexists).
  rewrite dom_record_all, dom_empty_L, (left_id_L ∅ (∪)) in Hdom.
  apply elem_of_list_to_set, list_elem_of_fmap in Hdom as ([k' w'] & -> & Hin).
  apply list_elem_of_fmap in Hin as (e & Heq & He).
  destruct (record_all_ge ∅ (entry_item <$> p) k' w') as (w'' & Hw'' & Hle).
  { apply list_elem_of_fmap. by exists e. }
  simpl in Hw. assert (w'' = w) as -> by congruence.
  apply Hp, reachable_admitted in He as [->|[_ Hadm]].
  - unfold entry_item in Heq. simpl in Heq. by injection Heq as -> _.
  - unfold entry_item in Heq. injection Heq as -> ->.
    by apply Qcle_trans with (entry_weight e).
Qed.

(** ** Edges and errors of the expansion *)

(** X10: on a store whose distances are at least 1, a chain that has
    already as many properties as [distance_threshold] allows is not
    expanded at all: the neighbourhood is its terminal concept alone, with
    the initial weight (or 0 when that weight is negative). *)
Theorem exhausted_chain_is_not_expanded self db fuel chain c :
  store_wf db → is_Some (property_weights self !! None) →
  last chain = Some c →
  distance_threshold self ≤ Z.of_nat (length chain) - 1 →
  find_and_weigh_neighbors self db (S fuel) chain =
  Return {[ c := pymax 0 (get_properties_weight self (removelast chain) *
                            get_ic self c) ]}.
Proof.
  intros Hwf Hhw Hlast Hdt. unfold find_and_weigh_neighbors, seed.
  rewrite Hlast. simpl mbind.
  set (s := (c, Z.of_nat (length chain) - 1,
             (get_properties_weight self (removelast chain) * get_ic self c)%Qc)).
  change (expand_loop self db (S fuel) [s] ∅ =
          Return (record_weight ∅ (entry_concept s) (entry_weight s))).
  rewrite expand_loop_cons.
  destruct (pushes_is_Return self db s Hhw) as [new Hpush]. rewrite Hpush.
  destruct new as [|e' new].
  - by destruct fuel.
  - pose proof (pushes_distance self db s (e' :: new) e' Hwf Hpush) as Hd.
    unfold entry_distance in Hd at 1. simpl in Hd.
    assert (e' ∈ e' :: new) as Hin by left. specialize (Hd Hin). lia.
Qed.

Lemma expand_loop_Raise self db fuel : ∀ todo result e,
  expand_loop self db fuel todo result = Raise e →
  e = KeyError ∧ property_weights self !! None = None.
Proof.
  induction fuel as [|fuel IH]; intros [|x todo] result e; try done.
  rewrite expand_loop_cons. unfold pushes at 1.
  destruct (property_weights self !! None) as [hw|] eqn:Hhw.
  - case_decide; simpl; apply IH.
  - by intros [= <-].
Qed.

(** X11: the expansion of a chain raises [IndexError] exactly when the
    chain is empty, and a [KeyError] that it raises comes from a table
    without hierarchy weight under the sentinel key, the chain not being
    empty. *)
Theorem find_and_weigh_neighbors_errors self db fuel chain :
  (chain = [] ↔ find_and_weigh_neighbors self db fuel chain = Raise IndexError) ∧
  (find_and_weigh_neighbors self db fuel chain = Raise KeyError →
   chain ≠ [] ∧ property_weights self !! None = None).
Proof.
  unfold find_and_weigh_neighbors, seed. split; [split|].
  - by intros ->.
  - destruct (last chain) as [c|] eqn:Hlast; simpl.
    + by intros [? _]%expand_loop_Raise.
    + intros _. by apply last_None.
  - destruct (last chain) as [c|] eqn:Hlast; simpl; [|done].
    intros [_ Hhw]%expand_loop_Raise. split; [|done]. by intros ->.
Qed.

Lemma relation_pushes_same_relations self db db' e :
  existential_relations db = existential_relations db' →
  relation_pushes self db e = relation_pushes self db' e.
Proof.
  intros Hrel. destruct e as [[c d] w].
  unfold relation_pushes, get_relations_query. by rewrite Hrel.
Qed.

(** X12: with a hierarchy weight of 0 the expansion never reads the
    hierarchy: two stores with the same existential relations give the
    same outcome, whatever their hierarchies. *)
Theorem zero_hierarchy_weight_ignores_hierarchy self db db' fuel chain :
  property_weights self !! None = Some 0%Qc →
  existential_relations db = existential_relations db' →
  find_and_weigh_neighbors self db fuel chain =
  find_and_weigh_neighbors self db' fuel chain.
Proof.
  intros Hhw Hrel. unfold find_and_weigh_neighbors.
  destruct (seed self chain) as [s| |]; [|done..]. simpl.
  generalize (∅ : gmap Z Qc). generalize [s].
  induction fuel as [|fuel IH]; intros [|e todo] result; try done.
  rewrite !expand_loop_cons.
  assert (pushes self db e = pushes self db' e) as ->.
  { unfold pushes. rewrite Hhw, !decide_True by done.
    by rewrite (relation_pushes_same_relations self db db'). }
  destruct (pushes self db' e) as [new| |]; [|done..]. apply IH.
Qed.

(** ** The constructor and the weight table *)

Section Table.
Variable get_id : pyval → option string → outcome Z.
Variable math_log : Z → Qc.

Lemma init_Return o db self :
  init get_id math_log o db = Return self →
  ∃ weights dw table,
    initial_weights math_log (opt_default_weight o) db = Return (weights, dw) ∧
    explicit_weights get_id (opt_property_weights o) weights = Return table ∧
    self = {| distance_threshold := opt_distance_threshold o;
              weight_threshold := opt_weight_threshold o;
              property_weights := <[None := opt_hierarchy_weight o]> table;
              default_weight := dw;
              ic_calculator := opt_ic o;
              discover_subclasses := opt_discover_subclasses o |}.
Proof.
  unfold init.
  destruct (initial_weights math_log (opt_default_weight o) db)
    as [[weights dw]| |]; simpl; [|done..].
  destruct (explicit_weights get_id (opt_property_weights o) weights)
    as [table| |] eqn:Htable; simpl; [|done..].
  intros [= <-]. by exists weights, dw, table.
Qed.

Lemma set_property_weight_Return weights item table :
  set_property_weight get_id weights item = Return table →
  ∃ prop, get_id item.1 (Some "ObjectProperty"%string) = Return prop ∧
          table = <[Some prop := item.2]> weights.
Proof.
  unfold set_property_weight.
  destruct (get_id item.1 _) as [prop| |]; simpl; [|done..].
  intros [= <-]. by exists prop.
Qed.

(** The loop over the explicit weights leaves every other key alone. *)
Lemma explicit_loop_unlisted items : ∀ weights table k,
  for_loop (set_property_weight get_id) items weights = Return table →
  (∀ p, k = Some p → ¬ listed get_id items p) →
  table !! k = weights !! k.
Proof.
  induction items as [|item items IH]; intros weights table k.
  - by intros [= <-].
  - rewrite for_loop_cons.
    destruct (set_property_weight get_id weights item) as [weights'| |] eqn:Hset;
      [|done..].
    apply set_property_weight_Return in Hset as (prop & Hprop & ->).
    intros Hloop Hk. rewrite (IH _ table k Hloop).
    + apply lookup_insert_ne. intros <-. apply (Hk prop eq_refl).
      exists item. split; [left|done].
    + intros p -> (item' & Hin & Hid). apply (Hk p eq_refl).
      exists item'. split; [by right|done].
Qed.

(** The last entry that resolves to a property sets its weight. *)
Lemma explicit_loop_last items1 : ∀ iri w items2 p weights table,
  for_loop (set_property_weight get_id) (items1 ++ (iri, w) :: items2) weights
    = Return table →
  get_id iri (Some "ObjectProperty"%string) = Return p →
  ¬ listed get_id items2 p →
  table !! Some p = Some w.
Proof.
  induction items1 as [|item items1 IH]; intros iri w items2 p weights table.
  - rewrite app_nil_l, for_loop_cons.
    destruct (set_property_weight get_id weights (iri, w)) as [weights'| |] eqn:Hset;
      [|done..].
    apply set_property_weight_Return in Hset as (prop & Hprop & ->).
    simpl in Hprop. intros Hloop Hp Hunlisted.
    assert (prop = p) as -> by congruence.
    rewrite (explicit_loop_unlisted items2 _ table (Some p) Hloop).
    + apply lookup_insert_eq.
    + by intros ? [= <-].
  - rewrite <-app_comm_cons, for_loop_cons.
    destruct (set_property_weight get_id weights item) as [weights'| |];
      [|done..].
    apply IH.
Qed.

(** X3: a comparer that the constructor returns holds the hierarchy weight
    under the sentinel key, whatever explicit weights were given, so that
    expanding a chain with it never raises [KeyError]. *)
Theorem init_sets_hierarchy_weight o db self :
  init get_id math_log o db = Return self →
  property_weights self !! None = Some (opt_hierarchy_weight o) ∧
  ∀ db' fuel chain,
    find_and_weigh_neighbors self db' fuel chain ≠ Raise KeyError.
Proof.
  intros (weights & dw & table & _ & _ & ->)%init_Return. simpl.
  split; [apply lookup_insert_eq|].
  intros db' fuel chain. unfold find_and_weigh_neighbors, seed.
  destruct (last chain) as [c|]; [|done]. simpl.
  intros [_ Hhw]%expand_loop_Raise. simpl in Hhw.
  by rewrite lookup_insert_eq in Hhw.
Qed.

(** X4: in the comparer that the constructor returns, a property has the
    weight of the last explicit entry whose IRI resolves to it: explicit
    weights override derived ones and later entries override earlier
    ones. *)
Theorem explicit_weight_overrides o db self items1 iri w items2 p :
  init get_id math_log o db = Return self →
  opt_property_weights o = PropertyWeights (items1 ++ (iri, w) :: items2) →
  get_id iri (Some "ObjectProperty"%string) = Return p →
  ¬ listed get_id items2 p →
  property_weights self !! Some p = Some w ∧
  get_properties_weight self [p] = w.
Proof.
  intros (weights & dw & table & _ & Htable & ->)%init_Return Hitems Hp Hlast.
  rewrite Hitems in Htable. simpl in Htable.
  assert (<[None := opt_hierarchy_weight o]> table !! Some p = Some w) as Hw.
  { rewrite lookup_insert_ne by done.
    by apply (explicit_loop_last items1 iri w items2 p weights). }
  split; [done|]. unfold get_properties_weight. simpl. rewrite Hw. simpl.
  apply Qcmult_1_l.
Qed.

Lemma get_properties_weight_unlisted self props :
  (∀ p, p ∈ props → property_weights self !! Some p = None) →
  get_properties_weight self props =
  foldl (λ result _, (result * default_weight self)%Qc) 1%Qc props.
Proof.
  unfold get_properties_weight. generalize 1%Qc.
  induction props as [|p props IH]; intros a Hprops; simpl; [done|].
  rewrite Hprops by left. simpl. apply IH. intros; apply Hprops; by right.
Qed.

(** X5: in a comparer built with a numeric default weight [w], a chain of
    properties none of which has an explicit weight weighs 1 multiplied
    by [w] once for each property. *)
Theorem unlisted_properties_weigh_default o db self w props :
  init get_id math_log o db = Return self →
  opt_default_weight o = DefaultWeight w →
  (∀ items, opt_property_weights o = PropertyWeights items →
            ∀ p, p ∈ props → ¬ listed get_id items p) →
  get_properties_weight self props =
  foldl (λ result _, (result * w)%Qc) 1%Qc props.
Proof.
  intros (weights & dw & table & Hinit & Htable & ->)%init_Return Hdw Hprops.
  rewrite Hdw in Hinit. injection Hinit as <- <-.
  rewrite get_properties_weight_unlisted; [done|]. simpl.
  intros p Hp. rewrite lookup_insert_ne by done.
  destruct (opt_property_weights o) as [|items|ls] eqn:Hpw; simpl in Htable.
  - by injection Htable as <-.
  - rewrite (explicit_loop_unlisted items ∅ table (Some p) Htable); [done|].
    intros ? [= <-]. by apply (Hprops items).
  - done.
Qed.

End Table.

(** ** Weights of the unit interval *)

Lemma Qcpower_unit_interval (q : Qc) (n : nat) :
  unit_interval q → unit_interval (q ^ n).
Proof.
  intros Hq. induction n as [|n IH]; simpl; [apply unit_interval_1|].
  by apply unit_interval_mult.
Qed.

Lemma pypow_unit_interval (q : Qc) (d : Z) :
  unit_interval q → 0 ≤ d → unit_interval (pypow q d).
Proof.
  intros Hq Hd. unfold pypow. rewrite decide_False by lia.
  by apply Qcpower_unit_interval.
Qed.

Lemma pymax_unit_interval (a b : Qc) :
  unit_interval a → unit_interval b → unit_interval (pymax a b).
Proof. intros. unfold pymax. by case_decide. Qed.

Lemma get_hierarchy_query_distance discover db c b relative dist :
  store_wf db → (relative, dist) ∈ get_hierarchy_query discover db c b →
  1 ≤ dist.
Proof.
  intros [_ Hhier]. rewrite Forall_forall in Hhier.
  intros [(r & Hr & _ & _ & <- & _)|[_ (r & Hr & _ & _ & <- & _)]]
    %elem_of_get_hierarchy_query; by apply Hhier.
Qed.

Lemma seed_unit_interval self chain s :
  unit_config self → seed self chain = Return s → unit_interval (entry_weight s).
Proof.
  intros Hunit (c & _ & ->)%seed_Return. unfold entry_weight. simpl.
  apply unit_interval_mult; [by apply get_properties_weight_unit_interval|].
  by apply Hunit.
Qed.

Lemma reachable_unit_interval self db s e :
  unit_config self → store_wf db → unit_interval (entry_weight s) →
  reachable self db s e → unit_interval (entry_weight e).
Proof.
  intros Hunit Hwf Hs. induction 1 as [|e new e' _ IH Hpush He']; [done|].
  apply pushes_Return in Hpush as (hw & Hhw & Hnew).
  destruct (Hnew _ He') as [Hr|[_ Hh]].
  - apply elem_of_relation_pushes in Hr as (r & _ & _ & _ & _ & ->).
    apply unit_interval_mult; [done|by apply get_properties_weight_unit_interval].
  - apply elem_of_hierarchy_pushes in Hh as (relative & dist & Hrow & _ & ->).
    apply unit_interval_mult; [done|]. apply pypow_unit_interval.
    + destruct Hunit as [Htable _]. by apply (Htable None).
    + apply (get_hierarchy_query_distance _ _ _ _ _ _ Hwf) in Hrow. lia.
Qed.

Lemma record_all_unit_weights (result : gmap Z Qc) (items : list (Z * Qc)) :
  unit_weights result → (∀ k w, (k, w) ∈ items → unit_interval w) →
  unit_weights (record_all result items).
Proof.
  intros Hres. induction items as [|[k0 w0] items IH]; intros Hitems; [done|].
  intros k w. simpl. rewrite lookup_record_weight.
  assert (unit_weights (record_all result items)) as Hrec
    by (apply IH; intros; eapply Hitems; by right).
  case_decide as Hk; [|by apply Hrec]. intros [= <-].
  apply pymax_unit_interval; [|apply (Hitems k0); left].
  destruct (record_all result items !! k0) as [v|] eqn:Hv; simpl;
    [by apply (Hrec k0)|apply unit_interval_0].
Qed.

Lemma find_and_weigh_neighbors_unit self db fuel chain r :
  unit_config self → store_wf db →
  find_and_weigh_neighbors self db fuel chain = Return r → unit_weights r.
Proof.
  intros Hunit Hwf (s & p & Hs & -> & Hp)%find_and_weigh_neighbors_reachable.
  apply record_all_unit_weights; [done|].
  intros k w (e & Heq & He%Hp)%list_elem_of_fmap.
  unfold entry_item in Heq. injection Heq as -> ->.
  apply (reachable_unit_interval self db s e); [done..| |done].
  by apply (seed_unit_interval self chain).
Qed.

Lemma construct_neighborhood_unit self db fuel chains n :
  unit_config self → store_wf db →
  construct_neighborhood self db fuel chains = Return n → unit_weights n.
Proof.
  intros Hunit Hwf (items & -> & Hitems & _)%construct_loop_spec.
  apply record_all_unit_weights; [done|].
  intros k w (ch & nb & _ & Hnb & Hkw%elem_of_map_to_list)%Hitems.
  by apply (find_and_weigh_neighbors_unit self db fuel ch nb Hunit Hwf Hnb k).
Qed.

Lemma inter_le_union (n1 n2 : gmap Z Qc) :
  unit_weights n1 → unit_weights n2 →
  (0 ≤ inter n1 n2 ∧ inter n1 n2 ≤ union n1 n2)%Qc.
Proof.
  intros H1 H2. rewrite inter_sum, union_sum. split.
  - apply sum_list_fmap_nonneg. intros k _.
    apply product_nonneg; by apply default_unit_weight.
  - apply sum_list_fmap_le. intros k _. unfold union_term.
    apply product_le_probabilistic_sum; by apply default_unit_weight.
Qed.

(** X13: when the property weights, the hierarchy weight, the default
    weight and the information contents lie in [[0,1]] and the distances
    of the store are at least 1, every weight of a returned neighbourhood,
    of a chain or of an item, lies in [[0,1]]. *)
Theorem neighborhoods_have_unit_weights self db fuel :
  unit_config self → store_wf db →
  (∀ chain r, find_and_weigh_neighbors self db fuel chain = Return r →
              unit_weights r) ∧
  (∀ chains n, construct_neighborhood self db fuel chains = Return n →
               unit_weights n).
Proof.
  intros Hunit Hwf. split.
  - intros chain r. by apply find_and_weigh_neighbors_unit.
  - intros chains n. by apply construct_neighborhood_unit.
Qed.

Section Scores.
Variable get_id : pyval → option string → outcome Z.
Variable to_seq : pyval → outcome (list pyval).

(** X14: under the same conditions no score that [compare] returns is
    negative. *)
Theorem compare_nonnegative self db fuel one two v :
  unit_config self → store_wf db →
  compare get_id to_seq self db fuel one two = Return v →
  (0 ≤ v)%Qc.
Proof.
  intros Hunit Hwf. unfold compare.
  destruct (convert_input get_id to_seq one) as [c1| |]; [|done..].
  destruct (convert_input get_id to_seq two) as [c2| |]; [|done..]. simpl.
  destruct (construct_neighborhood self db fuel c1) as [n1| |] eqn:Hn1; [|done..].
  destruct (construct_neighborhood self db fuel c2) as [n2| |] eqn:Hn2; [|done..].
  simpl. unfold similarity. case_decide as Hu; [done|]. intros [= <-].
  destruct (inter_le_union n1 n2) as [Hlo Hhi];
    [by apply (construct_neighborhood_unit self db fuel c1)|
     by apply (construct_neighborhood_unit self db fuel c2)|].
  apply quotient_nonneg; [done|].
  destruct (Qclt_le_dec 0 (union n1 n2)) as [|Hle]; [done|].
  destruct Hu. apply Qcle_antisym; [done|]. by apply Qcle_trans with (inter n1 n2).
Qed.

End Scores.

Lemma seed_weight_recorded self db fuel chain r c :
  find_and_weigh_neighbors self db fuel chain = Return r →
  last chain = Some c →
  ∃ w, r !! c = Some w ∧
       (get_properties_weight self (removelast chain) * get_ic self c ≤ w)%Qc.
Proof.
  intros (s & n & q & Hs & _ & ->)%find_and_weigh_neighbors_forest Hlast.
  apply seed_Return in Hs as (c' & Hc' & ->).
  assert (c' = c) as -> by congruence.
  apply record_all_ge. rewrite fmap_cons. left.
Qed.

(** X15: under the same conditions and without an information-content
    service, a bare concept belongs to its own neighbourhood with weight
    exactly 1. *)
Theorem bare_concept_has_weight_one self db fuel c r :
  unit_config self → store_wf db → ic_calculator self = None →
  find_and_weigh_neighbors self db fuel [c] = Return r →
  r !! c = Some 1%Qc.
Proof.
  intros Hunit Hwf Hic Hr.
  pose proof (find_and_weigh_neighbors_unit self db fuel [c] r Hunit Hwf Hr) as Hu.
  destruct (seed_weight_recorded self db fuel [c] r c Hr eq_refl)
    as (w & Hw & Hle).
  rewrite Hw. f_equal. apply Qcle_antisym; [by apply (Hu c)|].
  revert Hle. unfold get_ic. rewrite Hic. simpl.
  by rewrite Qcmult_1_l.
Qed.

(** ** Neighbourhoods of items *)

(** X16: the neighbourhood of an item is the pointwise maximum of the
    neighbourhoods of its chains: it bounds each of them from above and
    every weight it holds is held by one of them. *)
Theorem construct_neighborhood_pointwise_max self db fuel chains n :
  construct_neighborhood self db fuel chains = Return n →
  (∀ ch, ch ∈ chains →
     ∃ nb, find_and_weigh_neighbors self db fuel ch = Return nb ∧
           ∀ k w, nb !! k = Some w → ∃ w', n !! k = Some w' ∧ (w ≤ w')%Qc) ∧
  (∀ k w, n !! k = Some w →
     ∃ ch nb, ch ∈ chains ∧
              find_and_weigh_neighbors self db fuel ch = Return nb ∧
              nb !! k = Some w).
Proof.
  intros (items & -> & Hitems & Hall)%construct_loop_spec. split.
  - intros ch Hch. destruct (Hall ch Hch) as [nb Hnb]. exists nb. split; [done|].
    intros k w Hkw. apply record_all_ge, Hitems.
    exists ch, nb. by rewrite elem_of_map_to_list.
  - intros k w Hw.
    destruct (record_all_attained _ _ _ _ Hw) as [Hin|[Hempty| ->]]; [|done|].
    + apply Hitems in Hin as (ch & nb & ? & ? & ?%elem_of_map_to_list).
      by exists ch, nb.
    + assert (k ∈ dom (record_all ∅ items)) as Hdom
        by (apply elem_of_dom; by eexists).
      rewrite dom_record_all, dom_empty_L, (left_id_L ∅ (∪)) in Hdom.
      apply elem_of_list_to_set, list_elem_of_fmap in Hdom as ([k' w1] & -> & Hin).
      simpl in Hw. destruct (record_all_ge ∅ items k' w1 Hin) as (w' & Hw' & Hle).
      assert (w' = 0%Qc) as -> by congruence.
      apply Hitems in Hin as (ch & nb & Hch & Hnb & Hkw%elem_of_map_to_list).
      exists ch, nb. split; [done|]. split; [done|]. simpl. rewrite Hkw. f_equal.
      apply Qcle_antisym; [done|].
      apply find_and_weigh_neighbors_forest in Hnb as (s & m & q & _ & _ & ->).
      by apply (record_all_nonneg ∅ (entry_item <$> s :: q)) in Hkw.
Qed.

(** X17: the neighbourhood of an item does not depend on the order of its
    chains nor on their repetition. *)
Theorem construct_neighborhood_of_chain_set self db fuel chains1 chains2 n :
  (∀ ch, ch ∈ chains1 ↔ ch ∈ chains2) →
  construct_neighborhood self db fuel chains1 = Return n →
  construct_neighborhood self db fuel chains2 = Return n.
Proof. apply construct_neighborhood_ext. Qed.

(** ** Edges of the fuzzy-set combination *)

Lemma union_term_nonneg (n1 n2 : gmap Z Qc) (k : Z) :
  unit_weights n1 → unit_weights n2 → (0 ≤ union_term n1 n2 k)%Qc.
Proof.
  intros H1 H2. unfold union_term. simpl.
  pose proof (default_unit_weight n1 k H1). pose proof (default_unit_weight n2 k H2).
  revert H H0. generalize (default 0%Qc (n1 !! k)) (default 0%Qc (n2 !! k)).
  intros a b ? ?. qc_arith.
Qed.

Lemma probabilistic_sum_zero (a b : Qc) :
  (0 ≤ a ∧ a ≤ 1)%Qc → (0 ≤ b ∧ b ≤ 1)%Qc → (a + b - a * b)%Qc = 0%Qc →
  a = 0%Qc ∧ b = 0%Qc.
Proof.
  intros [Ha0 Ha1] [Hb0 Hb1] Hsum.
  assert ((a + b - a * b)%Qc == 0)%Q as Hq by by rewrite Hsum.
  clear Hsum. unfold Qcle, Qcminus, Qcplus, Qcmult, Qcopp in *. simpl in *.
  rewrite ?Qred_correct in *.
  split; apply Qc_is_canon; simpl; rewrite Qred_correct; nra.
Qed.

Lemma sum_list_fmap_zero_inv {A} (f : A → Qc) (l : list A) (x : A) :
  (∀ y, y ∈ l → (0 ≤ f y)%Qc) → sum_list (f <$> l) = 0%Qc → x ∈ l →
  f x = 0%Qc.
Proof.
  intros Hf Hsum Hx. apply Qcle_antisym; [|by apply Hf].
  rewrite <-Hsum. by apply sum_list_fmap_ge_elem.
Qed.

(** X18: for neighbourhoods with weights in [[0,1]] the quotient raises
    [ZeroDivisionError] exactly when every weight of both is 0, the empty
    neighbourhoods included. *)
Theorem similarity_zero_division (n1 n2 : gmap Z Qc) :
  unit_weights n1 → unit_weights n2 →
  (similarity n1 n2 = Raise ZeroDivisionError ↔
   map_Forall (λ _ w, w = 0%Qc) n1 ∧ map_Forall (λ _ w, w = 0%Qc) n2).
Proof.
  intros H1 H2. unfold similarity. split.
  - case_decide as Hu; [|done]. intros _. rewrite union_sum in Hu.
    assert (∀ k, k ∈ dom n1 ∪ dom n2 →
                 default 0%Qc (n1 !! k) = 0%Qc ∧ default 0%Qc (n2 !! k) = 0%Qc)
      as Hzero.
    { intros k Hk%elem_of_elements.
      apply probabilistic_sum_zero; [by apply default_unit_weight..|].
      apply (sum_list_fmap_zero_inv (union_term n1 n2)
               (elements (dom n1 ∪ dom n2)) k); [|done..].
      intros; by apply union_term_nonneg. }
    split; intros k w Hw.
    + destruct (Hzero k) as [Hk _];
        [apply elem_of_union; left; apply elem_of_dom; by eexists|].
      by rewrite Hw in Hk.
    + destruct (Hzero k) as [_ Hk];
        [apply elem_of_union; right; apply elem_of_dom; by eexists|].
      by rewrite Hw in Hk.
  - intros [Hz1 Hz2]. rewrite decide_True; [done|].
    rewrite union_sum. apply sum_list_fmap_zero. intros k _. unfold union_term.
    assert (default 0%Qc (n1 !! k) = 0%Qc) as ->.
    { destruct (n1 !! k) as [w|] eqn:Hw; simpl; [by apply (Hz1 k)|done]. }
    assert (default 0%Qc (n2 !! k) = 0%Qc) as ->.
    { destruct (n2 !! k) as [w|] eqn:Hw; simpl; [by apply (Hz2 k)|done]. }
    by apply Qc_is_canon.
Qed.

(** X19: two neighbourhoods without a common concept have intersection 0,
    so that their similarity, when it is returned, is 0. *)
Theorem disjoint_neighborhoods_score_zero (n1 n2 : gmap Z Qc) :
  dom n1 ## dom n2 →
  inter n1 n2 = 0%Qc ∧ ∀ v, similarity n1 n2 = Return v → v = 0%Qc.
Proof.
  intros Hdisj.
  assert (inter n1 n2 = 0%Qc) as Hinter.
  { rewrite inter_sum. apply sum_list_fmap_zero. intros k _.
    destruct (n1 !! k) as [w1|] eqn:H1; simpl; [|apply Qcmult_0_l].
    destruct (n2 !! k) as [w2|] eqn:H2; simpl; [|apply Qcmult_0_r].
    destruct (Hdisj k); apply elem_of_dom; by eexists. }
  split; [done|]. intros v. unfold similarity. case_decide; [done|].
  intros [= <-]. rewrite Hinter. unfold Qcdiv. apply Qcmult_0_l.
Qed.

(** ** Input normalization *)

Lemma mapM_Return {A B} (f : A → outcome B) (l : list A) (k : list B) :
  mapM f l = Return k → Forall2 (λ x y, f x = Return y) l k.
Proof.
  revert k. induction l as [|x l IH]; intros k; simpl.
  - intros [= <-]. constructor.
  - destruct (f x) as [y| |] eqn:Hx; simpl; [|done..].
    destruct (mapM f l) as [k'| |]; simpl; [|done..].
    intros [= <-]. constructor; [done|]. by apply IH.
Qed.

Section Normalization.
Variable get_id : pyval → option string → outcome Z.
Variable to_seq : pyval → outcome (list pyval).

Lemma chain_to_ids_Return chain ids :
  chain_to_ids get_id chain = Return ids →
  ∃ names name pids cid,
    chain = names ++ [name] ∧ ids = pids ++ [cid] ∧
    Forall2 (λ v i, get_id v (Some "ObjectProperty"%string) = Return i)
            names pids ∧
    get_id name None = Return cid.
Proof.
  unfold chain_to_ids. destruct (last chain) as [name|] eqn:Hlast; [|done].
  apply last_Some in Hlast as [names ->]. rewrite removelast_last.
  destruct (mapM _ names) as [pids| |] eqn:Hpids; simpl; [|done..].
  destruct (get_id name None) as [cid| |] eqn:Hcid; simpl; [|done..].
  intros [= <-]. exists names, name, pids, cid.
  repeat split; try done. by apply mapM_Return.
Qed.

(** X6: a chain of names that [chain_to_ids] converts is not empty; its
    last name is resolved as a concept and the names before it as object
    properties, in order, so that the identifiers are as many as the
    names; the empty chain raises [IndexError]. *)
Theorem chain_to_ids_shape chain :
  (chain = [] → chain_to_ids get_id chain = Raise IndexError) ∧
  ∀ ids, chain_to_ids get_id chain = Return ids →
    length ids = length chain ∧
    ∃ names name pids cid,
      chain = names ++ [name] ∧ ids = pids ++ [cid] ∧
      Forall2 (λ v i, get_id v (Some "ObjectProperty"%string) = Return i)
              names pids ∧
      get_id name None = Return cid.
Proof.
  split; [by intros ->|]. intros ids Hids.
  destruct (chain_to_ids_Return chain ids Hids)
    as (names & name & pids & cid & -> & -> & Hprops & Hcid).
  split.
  - rewrite !length_app. apply Forall2_length in Hprops. simpl. lia.
  - by exists names, name, pids, cid.
Qed.

Lemma find_and_weigh_neighbors_IndexError self db fuel chain :
  find_and_weigh_neighbors self db fuel chain = Raise IndexError → chain = [].
Proof.
  unfold find_and_weigh_neighbors, seed.
  destruct (last chain) as [c|] eqn:Hlast; simpl.
  - by intros [? _]%expand_loop_Raise.
  - intros _. by apply last_None.
Qed.

(** X20: the chains that [convert_input] returns are all non-empty, one
    for a concept and one per element for a list, so that the expansion
    of a chain of a normalized item never raises [IndexError]. *)
Theorem convert_input_chains_nonempty item chains :
  convert_input get_id to_seq item = Return chains →
  Forall (λ ch, ch ≠ []) chains ∧
  length chains =
    match item with PyList elements => length elements | _ => 1%nat end ∧
  ∀ self db fuel ch, ch ∈ chains →
    find_and_weigh_neighbors self db fuel ch ≠ Raise IndexError.
Proof.
  intros Hconv.
  assert (∃ names, mapM (chain_to_ids get_id) names = Return chains ∧
                   length names =
                   match item with PyList elements => length elements | _ => 1%nat end)
    as (names & Hids%mapM_Return & Hlen).
  { unfold convert_input in Hconv. destruct item as [s|z| |elements]; simpl in Hconv;
      [by exists [[PyStr s]]|done..|].
    destruct (mapM to_seq elements) as [names| |] eqn:Hnames; [|done..].
    exists names. split; [done|].
    apply mapM_Return, Forall2_length in Hnames. done. }
  assert (Forall (λ ch, ch ≠ []) chains) as Hne.
  { clear Hlen Hconv. induction Hids as [|names0 ids ? ? Hid _ IH]; constructor; [|done].
    apply chain_to_ids_Return in Hid as (? & ? & pids & cid & _ & -> & _).
    by destruct pids. }
  split; [done|]. split.
  - apply Forall2_length in Hids. lia.
  - intros self db fuel ch Hch Hraise%find_and_weigh_neighbors_IndexError.
    rewrite Forall_forall in Hne. by apply (Hne ch).
Qed.

End Normalization.

(** ** Log-frequency weights *)

Lemma direct_relation_counts_spec db ch count :
  (ch, count) ∈ direct_relation_counts db →
  1 ≤ count ≤ Z.of_nat (length (existential_relations db)) ∧
  ∃ r, r ∈ existential_relations db ∧ rel_distance r = 1 ∧ rel_chain r = ch.
Proof.
  unfold direct_relation_counts.
  intros (ch' & [= -> ->] & Hch)%list_elem_of_fmap.
  apply elem_of_remove_dups, list_elem_of_fmap in Hch as (r & -> & Hr).
  assert (r ∈ filter (λ r0, rel_chain r0 = rel_chain r)
                (filter (λ r0, rel_distance r0 = 1) (existential_relations db)))
    as Hin by by apply list_elem_of_filter.
  apply list_elem_of_filter in Hr as [Hd Hr]. split; [split|by exists r].
  - destruct (filter _ (filter _ _)); [by apply elem_of_nil in Hin|simpl; lia].
  - pose proof (length_filter (λ r0, rel_chain r0 = rel_chain r)
                  (filter (λ r0, rel_distance r0 = 1) (existential_relations db))).
    pose proof (length_filter (λ r0, rel_distance r0 = 1) (existential_relations db)).
    lia.
Qed.

Lemma scaled_weight_in_range (lo hi a b : Qc) :
  (lo ≤ hi)%Qc → (0 ≤ a)%Qc → (a ≤ b)%Qc → (0 < b)%Qc →
  (lo ≤ lo + (hi - lo) * (1 - a / b) ∧ lo + (hi - lo) * (1 - a / b) ≤ hi)%Qc.
Proof.
  intros Hlh Ha Hab Hb.
  destruct (quotient_in_unit a b Ha Hab Hb) as [Hq0 Hq1].
  revert Hq0 Hq1. generalize (a / b)%Qc. intros q Hq0 Hq1. split; qc_arith.
Qed.

Section Frequencies.
Variable math_log : Z → Qc.

(** [math.log] is not negative from 1 on and does not decrease. *)
Hypothesis math_log_mono :
  ∀ n m, 1 ≤ n ≤ m → (0 ≤ math_log n ∧ math_log n ≤ math_log m)%Qc.

Lemma get_weights_loop_range (ls : LogScale) db rows :
  ∀ acc table : gmap (option Z) Qc,
  (scale_min ls ≤ scale_max ls)%Qc →
  (∀ ch count, (ch, count) ∈ rows →
     1 ≤ count ≤ Z.of_nat (length (existential_relations db))) →
  map_Forall (λ k w, (scale_min ls ≤ w ∧ w ≤ scale_max ls)%Qc ∧ k ≠ None) acc →
  for_loop (λ result (row : list Z * Z),
              let '(prop_id, count) := row in
              if decide (math_log (Z.of_nat (length (existential_relations db))) = 0%Qc)
              then Raise ZeroDivisionError else
              let weight :=
                (1 - math_log count /
                     math_log (Z.of_nat (length (existential_relations db))))%Qc in
              match prop_id with
              | [p] =>
                  Return (<[Some p := (scale_min ls +
                                       (scale_max ls - scale_min ls) * weight)%Qc]>
                          result)
              | _ => Raise ValueError
              end)
           rows acc = Return table →
  map_Forall (λ k w, (scale_min ls ≤ w ∧ w ≤ scale_max ls)%Qc ∧ k ≠ None) table.
Proof.
  induction rows as [|[ch count] rows IH]; intros acc table Hscale Hrows Hacc.
  - by intros [= <-].
  - rewrite for_loop_cons. case_decide as Hlog; [done|].
    destruct ch as [|p [|? ?]]; [done| |done]. simpl. apply IH; [done| |].
    + intros; eapply Hrows; by right.
    + apply map_Forall_insert_2; [|done]. split; [|done].
      destruct (Hrows [p] count) as [Hc1 Hc2]; [left|].
      destruct (math_log_mono count (Z.of_nat (length (existential_relations db))))
        as [Hl0 Hl1]; [done|].
      apply scaled_weight_in_range; [done..|].
      destruct (Qclt_le_dec 0
                  (math_log (Z.of_nat (length (existential_relations db)))))
        as [|Hle]; [done|].
      destruct Hlog. apply Qcle_antisym; [done|]. by apply Qcle_trans with (math_log count).
Qed.

Lemma get_weights_loop_keys (ls : LogScale) db rows :
  ∀ acc table : gmap (option Z) Qc,
  for_loop (λ result (row : list Z * Z),
              let '(prop_id, count) := row in
              if decide (math_log (Z.of_nat (length (existential_relations db))) = 0%Qc)
              then Raise ZeroDivisionError else
              let weight :=
                (1 - math_log count /
                     math_log (Z.of_nat (length (existential_relations db))))%Qc in
              match prop_id with
              | [p] =>
                  Return (<[Some p := (scale_min ls +
                                       (scale_max ls - scale_min ls) * weight)%Qc]>
                          result)
              | _ => Raise ValueError
              end)
           rows acc = Return table →
  ∀ p, is_Some (table !! Some p) →
       is_Some (acc !! Some p) ∨ ∃ count, ([p], count) ∈ rows.
Proof.
  induction rows as [|[ch count] rows IH]; intros acc table.
  - intros [= <-] p ?. by left.
  - rewrite for_loop_cons. case_decide as Hlog; [done|].
    destruct ch as [|q [|? ?]]; [done| |done]. simpl.
    intros Hloop p Hp. destruct (IH _ _ Hloop p Hp) as [Hacc|[c Hc]].
    + destruct (decide (q = p)) as [->|Hqp].
      * right. exists count. left.
      * left. rewrite lookup_insert_ne in Hacc; [done|congruence].
    + right. exists c. by right.
Qed.

(** X21: with [scale_min ≤ scale_max], every weight that log-frequency
    weighting derives is at least [scale_min] and is that of a property
    that labels a relation of distance 1; the hierarchy sentinel is never
    among the keys. *)
Theorem get_weights_floor (ls : LogScale) db table :
  (scale_min ls ≤ scale_max ls)%Qc →
  get_weights math_log ls db = Return table →
  table !! None = None ∧
  ∀ p w, table !! Some p = Some w →
    (scale_min ls ≤ w)%Qc ∧
    ∃ r, r ∈ existential_relations db ∧ rel_distance r = 1 ∧ rel_chain r = [p].
Proof.
  intros Hscale. unfold get_weights. case_decide as Htotal; [done|].
  intros Hloop.
  pose proof (get_weights_loop_keys ls db _ ∅ table Hloop) as Hkeys.
  apply (get_weights_loop_range ls db _ ∅ table Hscale) in Hloop.
  - split.
    + destruct (table !! None) as [w|] eqn:Hw; [|done].
      by destruct (Hloop None w Hw) as [_ ?].
    + intros p w Hw. split; [by destruct (Hloop (Some p) w Hw) as [[? _] _]|].
      destruct (Hkeys p) as [[? Hacc]|[count Hin]]; [by eexists|done|].
      by apply direct_relation_counts_spec in Hin as [_ ?].
  - intros ch count Hin. by apply direct_relation_counts_spec in Hin as [? _].
  - apply map_Forall_empty.
Qed.

End Frequencies.

(** X22: log-frequency weighting raises [ValueError] on a store without
    existential relations, raises [ZeroDivisionError] when the logarithm
    of the number of relations is 0 and some relation has distance 1, and
    returns the empty table when no relation has distance 1. *)
Theorem get_weights_edges math_log (ls : LogScale) db :
  (existential_relations db = [] →
   get_weights math_log ls db = Raise ValueError) ∧
  (math_log (Z.of_nat (length (existential_relations db))) = 0%Qc →
   (∃ r, r ∈ existential_relations db ∧ rel_distance r = 1) →
   get_weights math_log ls db = Raise ZeroDivisionError) ∧
  (existential_relations db ≠ [] →
   (∀ r, r ∈ existential_relations db → rel_distance r ≠ 1) →
   get_weights math_log ls db = Return ∅).
Proof.
  unfold get_weights. split; [|split].
  - by intros ->.
  - intros Hlog (r & Hr & Hd). rewrite decide_False.
    + assert (rel_chain r ∈ remove_dups
                (rel_chain <$> filter (λ r0, rel_distance r0 = 1)
                                 (existential_relations db))) as Hin.
      { apply elem_of_remove_dups, list_elem_of_fmap. exists r. split; [done|].
        by apply list_elem_of_filter. }
      unfold direct_relation_counts.
      destruct (remove_dups _) as [|ch chs]; [by apply elem_of_nil in Hin|].
      rewrite fmap_cons, for_loop_cons. by rewrite decide_True.
    + destruct (existential_relations db); [by apply elem_of_nil in Hr|simpl; lia].
  - intros Hne Hnone. rewrite decide_False.
    + unfold direct_relation_counts.
      assert (filter (λ r, rel_distance r = 1) (existential_relations db) = [])
        as ->; [|done].
      destruct (filter _ _) as [|r l] eqn:Hf; [done|].
      assert (r ∈ r :: l) as Hr by left.
      rewrite <-Hf in Hr. apply list_elem_of_filter in Hr as [Hd Hr].
      by destruct (Hnone r Hr).
    + destruct (existential_relations db); [done|simpl; lia].
Qed.

(** ** The further properties on the example ontology *)

Lemma example_self_unit_config : unit_config example_self.
Proof.
  split; [by_evaluation|]. split; [split; by vm_compute|].
  intros c. apply unit_interval_1.
Qed.

Lemma example_db_wf : store_wf example_db.
Proof. by_evaluation. Qed.

Lemma example_log_mono n m :
  1 ≤ n ≤ m → (0 ≤ example_log n ∧ example_log n ≤ example_log m)%Qc.
Proof.
  intros [Hn Hnm]. unfold example_log. rewrite <-Z2Qc_inj_0, <-!Z2Qc_inj_le.
  split; [apply Z.log2_nonneg|by apply Z.log2_le_mono].
Qed.

(** The chain [regulates.part_of.C] under the default weights. *)
Lemma get_properties_weight_unit_witness :
  (0 ≤ get_properties_weight example_self [11; 10] ∧
   get_properties_weight example_self [11; 10] ≤ 1)%Qc.
Proof.
  apply (get_properties_weight_unit example_self [11; 10]).
  split; [by_evaluation|split; by vm_compute].
Defined.

(** The constructor on the options with the directive as default weight. *)
Lemma init_sets_hierarchy_weight_witness :
  ∃ self,
    init example_get_id example_log directive_as_default_weight example_db =
      Return self ∧
    property_weights self !! None =
      Some (opt_hierarchy_weight directive_as_default_weight) ∧
    ∀ db' fuel chain,
      find_and_weigh_neighbors self db' fuel chain ≠ Raise KeyError.
Proof.
  eexists. split; [vm_compute; reflexivity|].
  apply (init_sets_hierarchy_weight example_get_id example_log
           directive_as_default_weight example_db).
  vm_compute; reflexivity.
Defined.

(** The explicit weight of [regulates] replaces its derived weight. *)
Lemma explicit_weight_overrides_witness :
  ∃ self,
    init example_get_id example_log directive_as_default_weight example_db =
      Return self ∧
    property_weights self !! Some 11 = Some (Q2Qc (9 # 10)) ∧
    get_properties_weight self [11] = Q2Qc (9 # 10).
Proof.
  eexists. split; [vm_compute; reflexivity|].
  apply (explicit_weight_overrides example_get_id example_log
           directive_as_default_weight example_db _ [] (PyStr "regulates")
           (Q2Qc (9 # 10)) [] 11).
  - vm_compute; reflexivity.
  - reflexivity.
  - reflexivity.
  - by intros (item & ?%elem_of_nil & _).
Defined.

(** [part_of] has no explicit weight in [explicit_regulates]. *)
Lemma unlisted_properties_weigh_default_witness :
  ∃ self,
    init example_get_id example_log explicit_regulates example_db = Return self ∧
    get_properties_weight self [10; 10] =
    foldl (λ (result : Qc) (_ : Z), (result * Q2Qc (7 # 10))%Qc) 1%Qc [10; 10].
Proof.
  eexists. split; [vm_compute; reflexivity|].
  apply (unlisted_properties_weigh_default example_get_id example_log
           explicit_regulates example_db _ (Q2Qc (7 # 10)) [10; 10]).
  - vm_compute; reflexivity.
  - reflexivity.
  - intros items [= <-] p Hp (item & ->%list_elem_of_singleton & Hid).
    vm_compute in Hid. injection Hid as <-.
    by repeat apply elem_of_cons in Hp as [?|Hp]; [..|apply elem_of_nil in Hp].
Defined.

(** The chain [part_of.C] as names. *)
Lemma chain_to_ids_shape_witness :
  chain_to_ids example_get_id [PyStr "part_of"; PyStr "C"] = Return [10; 3] ∧
  length [10; 3] = length [PyStr "part_of"; PyStr "C"].
Proof.
  split; [vm_compute; reflexivity|].
  apply (proj2 (chain_to_ids_shape example_get_id [PyStr "part_of"; PyStr "C"])
               [10; 3]).
  vm_compute; reflexivity.
Defined.

(** [C], pushed from [A] through [part_of], is reachable from the seed. *)
Lemma neighborhood_is_reachable_max_witness :
  ∃ r s,
    find_and_weigh_neighbors example_self example_db 100 [1] = Return r ∧
    seed example_self [1] = Return s ∧
    (∀ e, reachable example_self example_db s e →
          ∃ w, r !! entry_concept e = Some w ∧ (entry_weight e ≤ w)%Qc) ∧
    (∀ k w, r !! k = Some w →
            w = 0%Qc ∨
            ∃ e, reachable example_self example_db s e ∧
                 entry_concept e = k ∧ entry_weight e = w).
Proof.
  eexists _, _. split; [vm_compute; reflexivity|].
  split; [vm_compute; reflexivity|].
  apply (neighborhood_is_reachable_max example_self example_db 100 [1]).
  - vm_compute; reflexivity.
  - vm_compute; reflexivity.
Defined.

(** The weight of [B] in the neighbourhood of [A]. *)
Lemma neighborhood_weights_nonneg_witness :
  ∃ r w, find_and_weigh_neighbors example_self example_db 100 [1] = Return r ∧
         r !! 2 = Some w ∧ (0 ≤ w)%Qc.
Proof.
  eexists _, _. split; [vm_compute; reflexivity|].
  split; [vm_compute; reflexivity|].
  eapply (neighborhood_weights_nonneg example_self example_db 100 [1] _ 2).
  - vm_compute; reflexivity.
  - vm_compute; reflexivity.
Defined.

Lemma neighbors_meet_weight_threshold_witness :
  ∃ r w, find_and_weigh_neighbors example_self example_db 100 [1] = Return r ∧
         r !! 2 = Some w ∧ (weight_threshold example_self ≤ w)%Qc.
Proof.
  eexists _, _. split; [vm_compute; reflexivity|].
  split; [vm_compute; reflexivity|].
  eapply (neighbors_meet_weight_threshold example_self example_db 100 [1] _ 1 2).
  - vm_compute; reflexivity.
  - reflexivity.
  - lia.
  - vm_compute; reflexivity.
Defined.

(** [A] under a distance threshold of 0. *)
Lemma exhausted_chain_is_not_expanded_witness :
  let self := with_thresholds example_self 0 (Q2Qc (3 # 10)) in
  find_and_weigh_neighbors self example_db 1 [1] =
  Return {[ 1 := pymax 0 (get_properties_weight self (removelast [1]) *
                           get_ic self 1%Z) ]}.
Proof.
  apply (exhausted_chain_is_not_expanded
           (with_thresholds example_self 0 (Q2Qc (3 # 10))) example_db 0 [1] 1).
  - apply example_db_wf.
  - by eexists.
  - reflexivity.
  - simpl. lia.
Defined.

(** The example store with and without its hierarchy, hierarchy weight 0. *)
Lemma zero_hierarchy_weight_ignores_hierarchy_witness :
  find_and_weigh_neighbors flat_self example_db 100 [1] =
  find_and_weigh_neighbors flat_self example_relations_only 100 [1].
Proof.
  apply (zero_hierarchy_weight_ignores_hierarchy flat_self example_db
           example_relations_only 100 [1]); reflexivity.
Defined.

Lemma neighborhoods_have_unit_weights_witness :
  (∀ chain r, find_and_weigh_neighbors example_self example_db 100 chain = Return r →
              unit_weights r) ∧
  (∀ chains n, construct_neighborhood example_self example_db 100 chains = Return n →
               unit_weights n).
Proof.
  apply (neighborhoods_have_unit_weights example_self example_db 100).
  - apply example_self_unit_config.
  - apply example_db_wf.
Defined.

(** [A] against the item made of [B] and the chain [part_of.C]. *)
Lemma compare_nonnegative_witness :
  ∃ v,
    compare example_get_id example_to_seq example_self example_db 100
      (PyStr "A") (PyList [PyStr "B"; PyList [PyStr "part_of"; PyStr "C"]]) =
    Return v ∧ (0 ≤ v)%Qc.
Proof.
  eexists. split; [vm_compute; reflexivity|].
  apply (compare_nonnegative example_get_id example_to_seq example_self
           example_db 100 (PyStr "A")
           (PyList [PyStr "B"; PyList [PyStr "part_of"; PyStr "C"]])).
  - apply example_self_unit_config.
  - apply example_db_wf.
  - vm_compute; reflexivity.
Defined.

Lemma bare_concept_has_weight_one_witness :
  ∃ r, find_and_weigh_neighbors example_self example_db 100 [1] = Return r ∧
       r !! 1 = Some 1%Qc.
Proof.
  eexists. split; [vm_compute; reflexivity|].
  apply (bare_concept_has_weight_one example_self example_db 100 1).
  - apply example_self_unit_config.
  - apply example_db_wf.
  - reflexivity.
  - vm_compute; reflexivity.
Defined.

(** The item made of [B] and the chain [part_of.C]. *)
Lemma construct_neighborhood_pointwise_max_witness :
  ∃ n,
    construct_neighborhood example_self example_db 100 [[2]; [10; 3]] = Return n ∧
    (∀ ch, ch ∈ [[2]; [10; 3]] →
       ∃ nb, find_and_weigh_neighbors example_self example_db 100 ch = Return nb ∧
             ∀ k w, nb !! k = Some w → ∃ w', n !! k = Some w' ∧ (w ≤ w')%Qc) ∧
    (∀ k w, n !! k = Some w →
       ∃ ch nb, ch ∈ [[2]; [10; 3]] ∧
                find_and_weigh_neighbors example_self example_db 100 ch = Return nb ∧
                nb !! k = Some w).
Proof.
  eexists. split; [vm_compute; reflexivity|].
  apply (construct_neighborhood_pointwise_max example_self example_db 100
           [[2]; [10; 3]]).
  vm_compute; reflexivity.
Defined.

Lemma construct_neighborhood_of_chain_set_witness :
  ∃ n,
    construct_neighborhood example_self example_db 100 [[2]; [10; 3]] = Return n ∧
    construct_neighborhood example_self example_db 100 [[10; 3]; [2]; [10; 3]] =
      Return n.
Proof.
  eexists. split; [vm_compute; reflexivity|].
  apply (construct_neighborhood_of_chain_set example_self example_db 100
           [[2]; [10; 3]] [[10; 3]; [2]; [10; 3]]).
  - intros ch. rewrite !elem_of_cons. tauto.
  - vm_compute; reflexivity.
Defined.

(** The empty neighbourhood against one whose only weight is 0. *)
Lemma similarity_zero_division_witness :
  similarity (∅ : gmap Z Qc) {[ 1 := 0%Qc ]} = Raise ZeroDivisionError ↔
  map_Forall (λ _ w, w = 0%Qc) (∅ : gmap Z Qc) ∧
  map_Forall (λ _ w, w = 0%Qc) ({[ 1 := 0%Qc ]} : gmap Z Qc).
Proof.
  apply (similarity_zero_division ∅ {[ 1 := 0%Qc ]}); by_evaluation.
Defined.

Lemma disjoint_neighborhoods_score_zero_witness :
  let n1 : gmap Z Qc := {[ 1 := Q2Qc (1 # 2) ]} in
  let n2 : gmap Z Qc := {[ 2 := 1%Qc ]} in
  inter n1 n2 = 0%Qc ∧ ∀ v, similarity n1 n2 = Return v → v = 0%Qc.
Proof.
  apply (disjoint_neighborhoods_score_zero {[ 1 := Q2Qc (1 # 2) ]} {[ 2 := 1%Qc ]}).
  by_evaluation.
Defined.

Lemma convert_input_chains_nonempty_witness :
  let item := PyList [PyStr "B"; PyList [PyStr "part_of"; PyStr "C"]] in
  let chains : list (list Z) := [[2]; [10; 3]] in
  convert_input example_get_id example_to_seq item = Return chains ∧
  Forall (λ ch, ch ≠ []) chains ∧
  length chains = 2%nat ∧
  ∀ self db fuel ch, ch ∈ chains →
    find_and_weigh_neighbors self db fuel ch ≠ Raise IndexError.
Proof.
  split; [vm_compute; reflexivity|].
  apply (convert_input_chains_nonempty example_get_id example_to_seq
           (PyList [PyStr "B"; PyList [PyStr "part_of"; PyStr "C"]]) [[2]; [10; 3]]).
  vm_compute; reflexivity.
Defined.

(** Log-frequency weighting of the example store into [[0,1]]. *)
Lemma get_weights_floor_witness :
  ∃ table,
    get_weights example_log {| scale_min := 0; scale_max := 1 |} example_db =
      Return table ∧
    table !! None = None ∧
    ∀ p w, table !! Some p = Some w →
      (0 ≤ w)%Qc ∧
      ∃ r, r ∈ existential_relations example_db ∧ rel_distance r = 1 ∧
           rel_chain r = [p].
Proof.
  eexists. split; [vm_compute; reflexivity|].
  apply (get_weights_floor example_log example_log_mono
           {| scale_min := 0; scale_max := 1 |} example_db).
  - by vm_compute.
  - vm_compute; reflexivity.
Defined.

(** The empty chain. *)
Lemma find_and_weigh_neighbors_errors_witness :
  find_and_weigh_neighbors example_self example_db 100 [] = Raise IndexError.
Proof.
  apply (proj1 (proj1 (find_and_weigh_neighbors_errors example_self example_db
                         100 []))).
  reflexivity.
Defined.

(** Log-frequency weighting of the store without its relations. *)
Lemma get_weights_edges_witness :
  get_weights example_log {| scale_min := 0; scale_max := 1 |}
    {| existential_relations := []; hierarchy := hierarchy example_db |} =
  Raise ValueError.
Proof.
  apply (proj1 (get_weights_edges example_log {| scale_min := 0; scale_max := 1 |}
                  {| existential_relations := []; hierarchy := hierarchy example_db |})).
  reflexivity.
Defined.
